(** * EmojiData: the lookup and search class of emojify

    A shallow embedding of [src/lib/data-source/index.ts] (class [EmojiData])
    and of the record shapes of [emoji-data.models.ts].

    - A JavaScript string is its sequence of UTF-16 code units.
    - A JavaScript number is an IEEE-754 binary64 value ([PrimFloat.float]);
      array lengths, string indices and the [limit] of [searchEmoji] are
      integers and are kept in [Z].
    - A [Map] is a finite map ([gmap]) keyed by strings.  The plain
      object [skin_variations] is the finite map of its own properties;
      it is read through [getProperty], which also finds the names every
      object inherits from [Object.prototype].
    - [undefined] / [null] results are [None]; a field declared [string]
      that the code can leave [undefined] is an [option]. *)

From Stdlib Require Import ZArith NArith List Lia Bool String Ascii.
From Stdlib Require Import Sorting.Sorted Sorting.Permutation.
From Stdlib Require Import Floats.PrimFloat.
From stdpp Require Import base option list countable gmap.

Set Warnings "-inexact-float".
Local Open Scope Z_scope.

(** ** Strings *)

Module JsString.

(** One UTF-16 code unit is a number; a string is the list of its units. *)
Abbreviation unit := N.

Abbreviation t := (list N).

Definition unit_of_ascii (a : ascii) : unit := N_of_ascii a.

(** An ASCII literal of the source as a code-unit sequence. *)
Fixpoint lit (s : string) : t :=
  match s with
  | EmptyString => []
  | String a s' => unit_of_ascii a :: lit s'
  end.

(** [s.length] *)
Definition length (s : t) : Z := Z.of_nat (List.length s).

(** [a === b] on strings. *)
Fixpoint eqb (a b : t) : bool :=
  match a, b with
  | [], [] => true
  | c :: a', d :: b' => N.eqb c d && eqb a' b'
  | _, _ => false
  end.

(** [p] occurs in [s] at position 0. *)
Fixpoint startsWith (s p : t) {struct p} : bool :=
  match p with
  | [] => true
  | c :: p' =>
      match s with
      | [] => false
      | d :: s' => N.eqb c d && startsWith s' p'
      end
  end.

(** [s.indexOf(p)], with the positions of [s] counted from [i]: the first
    position at which [p] occurs, [-1] when there is none. *)
Fixpoint indexOfFrom (i : Z) (s p : t) : Z :=
  if startsWith s p then i
  else match s with
       | [] => -1
       | _ :: s' => indexOfFrom (i + 1) s' p
       end.

Definition indexOf (s p : t) : Z := indexOfFrom 0 s p.

(** [s.substring(0, e)]: the end index is clamped to [0 .. s.length]. *)
Definition substring0 (s : t) (e : Z) : t :=
  take (Z.to_nat (Z.min (Z.max e 0) (length s))) s.

(** *** [toLowerCase] on Basic Latin

    [String.prototype.toLowerCase] follows the Unicode case mappings.  The
    class is verified for any function [toLowerCase] that agrees with
    [asciiToLowerCase] on ASCII strings and leaves occurrences of
    lowercase-invariant ASCII text in place; [asciiToLowerCase] itself is
    such a function and is used to run the definitions. *)

Definition isAscii (u : unit) : bool := N.ltb u 128.

Definition isUpperAscii (u : unit) : bool := N.leb 65 u && N.leb u 90.

Definition lowerAsciiUnit (u : unit) : unit :=
  if isUpperAscii u then (u + 32)%N else u.

Definition asciiToLowerCase (s : t) : t := map lowerAsciiUnit s.

(** An ASCII unit that lowercasing leaves alone. *)
Definition lowerInvariant (u : unit) : bool := isAscii u && negb (isUpperAscii u).

(** *** Code points (for patterns with the [u] flag) *)

Definition isHighSurrogate (u : unit) : bool := N.leb 0xD800 u && N.leb u 0xDBFF.
Definition isLowSurrogate (u : unit) : bool := N.leb 0xDC00 u && N.leb u 0xDFFF.

Definition pairValue (h l : unit) : N :=
  (0x10000 + (h - 0xD800) * 0x400 + (l - 0xDC00))%N.

(** The code point at the head of [s] and what follows it: a high
    surrogate followed by a low one is read as one code point, any other
    unit (a lone surrogate included) stands for itself. *)
Definition codePointAt (s : t) : option (N * t) :=
  match s with
  | [] => None
  | h :: r =>
      match r with
      | l :: r' =>
          if isHighSurrogate h && isLowSurrogate l
          then Some (pairValue h l, r')
          else Some (h, r)
      | [] => Some (h, [])
      end
  end.

(** The whole string as code points. *)
Fixpoint toCodePoints (s : t) : list N :=
  match s with
  | [] => []
  | h :: r =>
      match r with
      | l :: r' =>
          if isHighSurrogate h && isLowSurrogate l
          then pairValue h l :: toCodePoints r'
          else h :: toCodePoints r
      | [] => [h]
      end
  end.

(** The units of [s] in front of its suffix [rest]. *)
Definition consumed (s rest : t) : t :=
  take (List.length s - List.length rest)%nat s.

End JsString.

Abbreviation jsstring := JsString.t.
Arguments JsString.lit _ : simpl never.
Notation "'js' s" := (JsString.lit s) (at level 1, s at level 0, only parsing).

(** ** Arrays *)

Module JsArray.

(** [Array.prototype.sort(cmp)].  The standard leaves the algorithm to the
    engine but requires the sort to be stable; for a consistent comparator
    the outcome is then the one of a stable insertion sort: [a] goes in
    front of the first element it does not compare greater than, and the
    elements inserted last are the leftmost of the array. *)
Fixpoint insertBy {A : Type} (cmp : A -> A -> Z) (a : A) (l : list A) : list A :=
  match l with
  | [] => [a]
  | b :: l' => if cmp a b <=? 0 then a :: l else b :: insertBy cmp a l'
  end.

Definition sort {A : Type} (cmp : A -> A -> Z) (l : list A) : list A :=
  foldr (insertBy cmp) [] l.

(** [l.slice(0, e)]: a negative [e] counts from the end of the array. *)
Definition slice0 {A : Type} (l : list A) (e : Z) : list A :=
  let len := Z.of_nat (List.length l) in
  let final := if e <? 0 then Z.max (len + e) 0 else Z.min e len in
  take (Z.to_nat final) l.

End JsArray.

(** ** Numbers *)

Definition number := float.
Bind Scope float_scope with number.

(** ** Records of [emoji-data.models.ts]

    The optional [obsoleted_by] and [obsoletes] are never read by the
    class and are left out. *)

Record SkinVariationData := {
  sv_unified : jsstring;
  sv_non_qualified : option jsstring;
  sv_image : jsstring;
  sv_sheet_x : number;
  sv_sheet_y : number;
  sv_added_in : jsstring;
  sv_has_img_apple : bool;
  sv_has_img_google : bool;
  sv_has_img_twitter : bool;
  sv_has_img_facebook : bool
}.

Record IEmoji := {
  name : jsstring;
  unified : jsstring;
  image : jsstring;
  sheet_x : number;
  sheet_y : number;
  short_name : jsstring;
  short_names : list jsstring;
  category : jsstring;
  subcategory : jsstring;
  char : jsstring;
  skin_variations : option (gmap jsstring SkinVariationData)
}.

Record EmojiImage := {
  ei_x : number;
  ei_y : number;
  sheetSizeX : number;
  sheetSizeY : number;
  ei_image : option jsstring
}.

Record EmoijSkinImageData := {
  si_sheet_x : number;
  si_sheet_y : number;
  si_unified : jsstring;
  si_short_name : jsstring;
  si_image : option jsstring
}.

(** ** Sprite-sheet constants and [findImage] *)

Definition sheetColumns : number := 61%float.
Definition sheetRows : number := 61%float.

Definition multiplyX : number := (100 / (sheetColumns - 1))%float.
Definition multiplyY : number := (100 / (sheetRows - 1))%float.

(** The names every object inherits from [Object.prototype] (ECMAScript,
    with its Annex B).  Their values are functions, and the prototype
    itself for [__proto__]: truthy, and without a property [sheet_x],
    [sheet_y] or [image]. *)
Definition objectPrototypeNames : list jsstring :=
  [ js"constructor"; js"__proto__"; js"hasOwnProperty"; js"isPrototypeOf";
    js"propertyIsEnumerable"; js"toLocaleString"; js"toString"; js"valueOf";
    js"__defineGetter__"; js"__defineSetter__"; js"__lookupGetter__";
    js"__lookupSetter__" ].

(** What [object[key]] gives on the object of the variations. *)
Inductive Property :=
| Own (f : SkinVariationData)
| Inherited
| Undefined.

Definition getProperty (vars : gmap jsstring SkinVariationData) (key : jsstring)
  : Property :=
  match vars !! key with
  | Some f => Own f
  | None =>
      if existsb (JsString.eqb key) objectPrototypeNames then Inherited else Undefined
  end.

(** [a || b]: [a] unless it is [undefined]. *)
Definition jsOr (a b : Property) : Property :=
  match a with
  | Undefined => b
  | _ => a
  end.

(** The value [findImage] settles on:
    [skin_variations[u] || skin_variations[`${u}-${u}`]]. *)
Definition foundEmoji (vars : gmap jsstring SkinVariationData) (u : jsstring)
  : Property :=
  jsOr (getProperty vars u) (getProperty vars (u ++ js"-" ++ u)).

(** [undefined] in a product is [NaN]. *)
Definition undefinedNumber : number := nan.

Definition findImage (actual : IEmoji) (variation : option IEmoji) : EmojiImage :=
  let sizeX := (100 * sheetColumns)%float in
  let sizeY := (100 * sheetRows)%float in
  match skin_variations actual, variation with
  | Some vars, Some v =>
      let found := foundEmoji vars (unified v) in
      {| ei_x := match found with
                 | Own f => (sv_sheet_x f * multiplyX)%float
                 | Inherited => (undefinedNumber * multiplyX)%float
                 | Undefined => 0%float
                 end;
         ei_y := match found with
                 | Own f => (sv_sheet_y f * multiplyY)%float
                 | Inherited => (undefinedNumber * multiplyY)%float
                 | Undefined => 0%float
                 end;
         sheetSizeX := sizeX;
         sheetSizeY := sizeY;
         ei_image := match found with
                     | Own f => Some (sv_image f)
                     | Inherited => None
                     | Undefined => Some []
                     end |}
  | _, _ =>
      {| ei_x := (sheet_x actual * multiplyX)%float;
         ei_y := (sheet_y actual * multiplyY)%float;
         sheetSizeX := sizeX;
         sheetSizeY := sizeY;
         ei_image := Some (image actual) |}
  end.

(** ** The three patterns of the class *)

Module Pattern.

(** *** [/skin-tone-(\d+)/] *)

Definition isDigit (u : N) : bool := N.leb 48 u && N.leb u 57.

Fixpoint digitsOf (s : jsstring) : jsstring :=
  match s with
  | [] => []
  | c :: s' => if isDigit c then c :: digitsOf s' else []
  end.

(** The pattern tried at the head of [s]: the literal, then the longest
    non-empty run of digits, which is the captured group. *)
Definition skinToneAt (s : jsstring) : option jsstring :=
  if JsString.startsWith s js"skin-tone-" then
    match digitsOf (drop 10 s) with
    | [] => None
    | ds => Some ds
    end
  else None.

(** [s.match(/skin-tone-(\d+)/)], reduced to its group 1: the leftmost
    position at which the pattern succeeds decides. *)
Fixpoint matchSkinTone (s : jsstring) : option jsstring :=
  match s with
  | [] => None
  | _ :: s' =>
      match skinToneAt s with
      | Some ds => Some ds
      | None => matchSkinTone s'
      end
  end.

(** *** [s.replace(/^(:+)|(:+)$/g, '')] *)

Definition isColon (u : N) : bool := N.eqb u 58.

Fixpoint skipColons (s : jsstring) : jsstring :=
  match s with
  | [] => []
  | c :: s' => if isColon c then skipColons s' else s
  end.

(** [(:+)$] tried at the head of [s]: one or more colons, then the end. *)
Fixpoint colonsToEnd (s : jsstring) : bool :=
  match s with
  | [] => false
  | c :: s' =>
      isColon c && match s' with
                   | [] => true
                   | _ => colonsToEnd s'
                   end
  end.

(** The scan past position 0, where only the second alternative can
    succeed; a success reaches the end of the string. *)
Fixpoint replaceTail (s : jsstring) : jsstring :=
  match s with
  | [] => []
  | c :: s' => if colonsToEnd s then [] else c :: replaceTail s'
  end.

(** The whole replacement: at position 0 the first alternative takes the
    longest run of leading colons when there is one. *)
Definition replaceColons (s : jsstring) : jsstring :=
  match s with
  | [] => []
  | c :: _ => if isColon c then replaceTail (skipColons s) else replaceTail s
  end.

(** *** The generated pattern [(c1|c2|...)([\u{DFFB}-\u{DFFF}])?] with
    flags [gu]

    The characters of the dataset go into the pattern as they are, but
    for the first star of each, which is escaped.  When no other syntax
    character of the pattern language is left in them, the pattern is an
    alternation of literals, [\*] standing for a star, and is kept as the
    ordered list of its alternatives, each one a sequence of code points.
    Otherwise the characters bring operators into the pattern, or the
    constructor rejects it; what the class does then is not described
    here. *)

(** The syntax characters of the pattern language:
    [^ $ \ . * + ? ( ) [ ] { } |]. *)
Definition isSyntaxCharacter (u : N) : bool :=
  existsb (N.eqb u) [94; 36; 92; 46; 42; 43; 63; 40; 41; 91; 93; 123; 125; 124]%N.

(** A character that is a literal once its first star is escaped: no
    syntax character but the star, and one star at most. *)
Definition literalSource (c : jsstring) : bool :=
  forallb (fun u => negb (isSyntaxCharacter u) || N.eqb u 42) c
  && Nat.leb (List.length (List.filter (N.eqb 42) c)) 1.

(** [c.replace('*', '\\*')]: a string pattern replaces its first
    occurrence only. *)
Fixpoint escapeStar (s : jsstring) : jsstring :=
  match s with
  | [] => []
  | c :: s' => if N.eqb c 42 then 92%N :: 42%N :: s' else c :: escapeStar s'
  end.

(** The characters an alternative stands for. *)
Fixpoint literalOf (src : list N) : list N :=
  match src with
  | [] => []
  | c :: src' =>
      match src' with
      | d :: src'' =>
          if N.eqb c 92 && N.eqb d 42 then 42%N :: literalOf src''
          else c :: literalOf src'
      | [] => [c]
      end
  end.

(** A literal matched at the head of [s], code point by code point; the
    result is what follows the match. *)
Fixpoint matchLiteral (pat : list N) (s : jsstring) : option jsstring :=
  match pat with
  | [] => Some s
  | p :: pat' =>
      match JsString.codePointAt s with
      | Some (c, rest) => if N.eqb c p then matchLiteral pat' rest else None
      | None => None
      end
  end.

(** Group 1: the first alternative, in the order of the pattern, that
    matches. *)
Fixpoint firstAlternative (alts : list (list N)) (s : jsstring) : option jsstring :=
  match alts with
  | [] => None
  | a :: alts' =>
      match matchLiteral a s with
      | Some rest => Some rest
      | None => firstAlternative alts' s
      end
  end.

Definition inModifierClass (c : N) : bool := N.leb 0xDFFB c && N.leb c 0xDFFF.

(** One attempt of the pattern at the head of [s]: group 1, group 2
    (empty when the optional class does not match) and the rest. *)
Definition execAt (alts : list (list N)) (s : jsstring)
  : option (jsstring * jsstring * jsstring) :=
  match firstAlternative alts s with
  | None => None
  | Some r1 =>
      let p1 := JsString.consumed s r1 in
      match JsString.codePointAt r1 with
      | Some (c, r2) =>
          if inModifierClass c then Some (p1, JsString.consumed r1 r2, r2)
          else Some (p1, [], r1)
      | None => Some (p1, [], r1)
      end
  end.

(** [text.replace(re, f)] for the pattern above, [f] receiving the match
    and group 1.  Without a match at the current position, or after an
    empty one, the code point there is copied and the scan moves past it.
    Every round but the last consumes a unit, so [fuel] above the length
    of [s] is never used up. *)
Fixpoint replaceLoop (alts : list (list N)) (f : jsstring -> jsstring -> jsstring)
  (fuel : nat) (s : jsstring) : jsstring :=
  match fuel with
  | O => s
  | S fuel' =>
      match execAt alts s with
      | Some (p1, p2, rest) =>
          let out := f (p1 ++ p2) p1 in
          match p1 ++ p2 with
          | [] =>
              match JsString.codePointAt s with
              | Some (_, rest') =>
                  out ++ JsString.consumed s rest' ++ replaceLoop alts f fuel' rest'
              | None => out
              end
          | _ :: _ => out ++ replaceLoop alts f fuel' rest
          end
      | None =>
          match JsString.codePointAt s with
          | Some (_, rest') => JsString.consumed s rest' ++ replaceLoop alts f fuel' rest'
          | None => []
          end
      end
  end.

Definition replaceAll (alts : list (list N)) (f : jsstring -> jsstring -> jsstring)
  (s : jsstring) : jsstring :=
  replaceLoop alts f (S (List.length s)) s.

End Pattern.

(** The outcome of a computation that is described for a part of its
    inputs only. *)
Inductive Modelled (A : Type) :=
| Known (a : A)
| OutsideModel.

Arguments Known {A} a.
Arguments OutsideModel {A}.

(** ** The class [EmojiData] *)

Section EmojiData.

(** [String.prototype.toLowerCase] *)
Variable toLowerCase : jsstring -> jsstring.

(** The dataset [emoji.json], in its order. *)
Variable emojis : list IEmoji.

(** [initEmojiMap]: later entries overwrite earlier ones. *)
Definition setShortNames (m : gmap jsstring IEmoji) (e : IEmoji) : gmap jsstring IEmoji :=
  foldl (fun m' n => <[ n := e ]> m') m (short_names e).

Definition emojiValMap : gmap jsstring IEmoji := foldl setShortNames ∅ emojis.

Definition emojiUnifiedValMap : gmap jsstring IEmoji :=
  foldl (fun m e => <[ char e := e ]> m) ∅ emojis.

(** [initUnified]: the escaped characters, longest first. *)
Definition emojiChars : list jsstring :=
  JsArray.sort (fun a b => JsString.length b - JsString.length a)
    (map (fun e => Pattern.escapeStar (char e)) emojis).

(** [emojiChars.join('|')] between the parentheses of group 1, each
    alternative read as a literal; joining no strings gives the empty
    pattern, whose only alternative is empty. *)
Definition alternatives : list (list N) :=
  match emojiChars with
  | [] => [ [] ]
  | _ :: _ => map (fun src => Pattern.literalOf (JsString.toCodePoints src)) emojiChars
  end.

(** The compiled pattern, described when every character of the dataset
    is a literal source. *)
Definition emojiUnicodeRegex : Modelled (list (list N)) :=
  if forallb (fun e => Pattern.literalSource (char e)) emojis
  then Known alternatives
  else OutsideModel.

Definition getVariationEmojis : list IEmoji :=
  List.filter (fun e => match skin_variations e with
                        | Some _ => true
                        | None => false
                        end) emojis.

Definition getEmojiByName (emojiStr : jsstring) : option IEmoji :=
  emojiValMap !! toLowerCase emojiStr.

Definition hasSkinTone (skinTone : option jsstring) : bool :=
  match skinTone with
  | Some s => JsString.indexOf s js"skin-tone-" >? -1
  | None => false
  end.

(** The template literal [`skin-tone-${skinTone}`]; a [null] prints as
    ["null"]. *)
Definition skinToneKey (skinTone : option jsstring) : jsstring :=
  js"skin-tone-" ++ match skinTone with
                    | Some ds => ds
                    | None => js"null"
                    end.

Definition getImageData (emojiStr : jsstring) : option EmojiImage :=
  let emojiStr := toLowerCase emojiStr in
  if JsString.indexOf emojiStr js"::skin-tone-" =? -1 then
    match emojiValMap !! emojiStr with
    | Some emojiVal =>
        if negb (JsString.eqb (category emojiVal) js"Skin Tones")
        then Some (findImage emojiVal None)
        else None
    | None => None
    end
  else
    let skinTone := Pattern.matchSkinTone emojiStr in
    let skinVal := emojiValMap !! skinToneKey skinTone in
    let emojiIdx := JsString.substring0 emojiStr (JsString.length emojiStr - 13) in
    match emojiValMap !! emojiIdx with
    | Some emojiVal => Some (findImage emojiVal skinVal)
    | None => None
    end.

Definition getImageDataWithColon (emojiStrWithColon : jsstring) : option EmojiImage :=
  getImageData (Pattern.replaceColons emojiStrWithColon).

(** An entry of the local array [result] of [searchEmoji]. *)
Record Hit := { index : Z; emoji : IEmoji }.

Definition hits (emojiStr : jsstring) : list Hit :=
  flat_map (fun e =>
    let i := JsString.indexOf (short_name e) emojiStr in
    if (i >? -1) && negb (hasSkinTone (Some (short_name e)))
    then [ {| index := i; emoji := e |} ] else []) emojis.

(** The array of [searchEmoji] after the two sorts and the [map]. *)
Definition ranked (emojiStr : jsstring) : list IEmoji :=
  map emoji
    (JsArray.sort (fun a b => index a - index b)
       (JsArray.sort
          (fun a b => JsString.length (short_name (emoji a))
                      - JsString.length (short_name (emoji b)))
          (hits emojiStr))).

Definition searchEmoji (emojiStr : jsstring) (limit : Z) : list IEmoji :=
  JsArray.slice0 (ranked emojiStr) limit.

Definition convertUniToStr (emojiUni withoutSkinToneUni : jsstring) : jsstring :=
  match emojiUnifiedValMap !! withoutSkinToneUni with
  | Some e => js":" ++ short_name e ++ js":"
  | None => emojiUni
  end.

Definition replaceEmojiToStr (text : jsstring) : Modelled jsstring :=
  match emojiUnicodeRegex with
  | Known alts => Known (Pattern.replaceAll alts convertUniToStr text)
  | OutsideModel => OutsideModel
  end.

Definition getSkinInfo (e : IEmoji) (skinTone : option jsstring) : EmoijSkinImageData :=
  let own := {| si_sheet_x := sheet_x e;
                si_sheet_y := sheet_y e;
                si_unified := unified e;
                si_short_name := short_name e;
                si_image := Some (image e) |} in
  match skinTone with
  | Some tone =>
      if hasSkinTone (Some tone) then
        let skinEmoji := emojiValMap !! tone in
        let pos := findImage e skinEmoji in
        {| si_sheet_x := ei_x pos;
           si_sheet_y := ei_y pos;
           si_unified := unified e;
           si_short_name := tone;
           si_image := ei_image pos |}
      else own
  | None => own
  end.

End EmojiData.

(** ** The category table of [initEmojiMap] *)

(** [CategoryData] of [emoji-data.models.ts]. *)
Definition CategoryData : list jsstring :=
  [ js"Activities"; js"Animals & Nature"; js"Component"; js"Flags";
    js"Food & Drink"; js"Objects"; js"People & Body"; js"Smileys & Emotion";
    js"Symbols"; js"Travel & Places" ].

Definition modifierCategory : jsstring := js"Skin Tones".

(** The second loop of [initEmojiMap], over an arbitrary table of
    categories: one [Map.set] for every category that is not the modifier
    category. *)
Definition categoryLookUp (categories : list jsstring) (emojis : list IEmoji)
  : gmap jsstring (list IEmoji) :=
  foldl (fun m eachCategory =>
           if negb (JsString.eqb eachCategory modifierCategory)
           then <[ eachCategory :=
                     List.filter (fun eachEmoji => JsString.eqb (category eachEmoji) eachCategory)
                       emojis ]> m
           else m)
        ∅ categories.

Definition emojiCategoryLookUp (emojis : list IEmoji) : gmap jsstring (list IEmoji) :=
  categoryLookUp CategoryData emojis.

(** ** The example script [example/script.js] *)

(** [str.split(' ')]: the pieces between the spaces, empty ones
    included; a string without a space is its only piece. *)
Fixpoint split (str : jsstring) : list jsstring :=
  match str with
  | [] => [ [] ]
  | c :: rest =>
      if N.eqb c 32 then [] :: split rest
      else match split rest with
           | part :: parts => (c :: part) :: parts
           | [] => [ [c] ]
           end
  end.

(** The lines the loop of the script writes with [console.log], one for
    each piece: the character of the emoji of that name, or the piece.
    (A record of the model always has its [char], so the test
    [emojiIm.char !== undefined] of the script is that of [emojiIm].) *)
Definition scriptLines (toLowerCase : jsstring -> jsstring) (emojis : list IEmoji)
  (str : jsstring) : list jsstring :=
  map (fun part =>
         match getEmojiByName toLowerCase emojis part with
         | Some emojiIm => char emojiIm
         | None => part
         end)
      (split str).

(** ** A sample dataset

    A few records in the shape of [emoji.json], to run the definitions
    on.  The values that the tests and the README of the repository quote
    ([smile], the variation image of [spock-hand], the
    [people_holding_hands] record of the test suite) are kept; the
    remaining grid positions are illustrative. *)

Module Sample.

Definition variation (uni img : jsstring) (sx sy : number) (added : jsstring)
  : SkinVariationData :=
  {| sv_unified := uni; sv_non_qualified := None; sv_image := img;
     sv_sheet_x := sx; sv_sheet_y := sy; sv_added_in := added;
     sv_has_img_apple := true; sv_has_img_google := true;
     sv_has_img_twitter := true; sv_has_img_facebook := true |}.

Definition record (nm uni img : jsstring) (sx sy : number) (short : jsstring)
  (cat sub : jsstring) (ch : jsstring)
  (vars : option (gmap jsstring SkinVariationData)) : IEmoji :=
  {| name := nm; unified := uni; image := img; sheet_x := sx; sheet_y := sy;
     short_name := short; short_names := [short]; category := cat;
     subcategory := sub; char := ch; skin_variations := vars |}.

Definition grinning : IEmoji :=
  record js"GRINNING FACE" js"1F600" js"1f600.png" 32 46 js"grinning"
    js"Smileys & Emotion" js"face-smiling" [0xD83D; 0xDE00]%N None.

Definition smile : IEmoji :=
  record js"SMILING FACE WITH OPEN MOUTH AND SMILING EYES" js"1F604"
    js"1f604.png" 32 50 js"smile"
    js"Smileys & Emotion" js"face-smiling" [0xD83D; 0xDE04]%N None.

Definition sob : IEmoji :=
  record js"LOUDLY CRYING FACE" js"1F62D" js"1f62d.png" 33 30 js"sob"
    js"Smileys & Emotion" js"face-concerned" [0xD83D; 0xDE2D]%N None.

Definition ski : IEmoji :=
  record js"SKI AND SKI BOOT" js"1F3BF" js"1f3bf.png" 8 36 js"ski"
    js"Activities" js"sport" [0xD83C; 0xDFBF]%N None.

Definition sa : IEmoji :=
  record js"SQUARED KATAKANA SA" js"1F202-FE0F" js"1f202-fe0f.png" 0 29 js"sa"
    js"Symbols" js"alphanum" [0xD83C; 0xDE02; 0xFE0F]%N None.

Definition keycap_star : IEmoji :=
  record js"KEYCAP: *" js"002A-FE0F-20E3" js"002a-fe0f-20e3.png" 0 1
    js"keycap_star" js"Symbols" js"keycap" [0x2A; 0xFE0F; 0x20E3]%N None.

Definition wave : IEmoji :=
  record js"WAVING HAND SIGN" js"1F44B" js"1f44b.png" 13 26 js"wave"
    js"People & Body" js"hand-fingers-open" [0xD83D; 0xDC4B]%N
    (Some (<[ js"1F3FB" := variation js"1F44B-1F3FB" js"1f44b-1f3fb.png" 13 27 js"0.6" ]>
          (<[ js"1F3FD" := variation js"1F44B-1F3FD" js"1f44b-1f3fd.png" 13 29 js"0.6" ]> ∅))).

Definition spock_hand : IEmoji :=
  record js"RAISED HAND WITH PART BETWEEN MIDDLE AND RING FINGERS" js"1F596"
    js"1f596.png" 31 12 js"spock-hand"
    js"People & Body" js"hand-fingers-open" [0xD83D; 0xDD96]%N
    (Some (<[ js"1F3FB" := variation js"1F596-1F3FB" js"1f596-1f3fb.png" 31 13 js"1.0" ]>
          (<[ js"1F3FD" := variation js"1F596-1F3FD" js"1f596-1f3fd.png" 31 15 js"1.0" ]> ∅))).

Definition people_holding_hands : IEmoji :=
  record js"PEOPLE HOLDING HANDS" js"1F9D1-200D-1F91D-200D-1F9D1"
    js"1f9d1-200d-1f91d-200d-1f9d1.png" 49 28 js"people_holding_hands"
    js"People & Body" js"family"
    [0xD83E; 0xDDD1; 0x200D; 0xD83E; 0xDD1D; 0x200D; 0xD83E; 0xDDD1]%N
    (Some (<[ js"1F3FB-1F3FB" :=
                variation js"1F9D1-1F3FB-200D-1F91D-200D-1F9D1-1F3FB"
                  js"1f9d1-1f3fb-200d-1f91d-200d-1f9d1-1f3fb.png" 49 29 js"12.0" ]>
          (<[ js"1F3FB-1F3FC" :=
                variation js"1F9D1-1F3FB-200D-1F91D-200D-1F9D1-1F3FC"
                  js"1f9d1-1f3fb-200d-1f91d-200d-1f9d1-1f3fc.png" 49 30 js"12.1" ]>
          (<[ js"1F3FF-1F3FF" :=
                variation js"1F9D1-1F3FF-200D-1F91D-200D-1F9D1-1F3FF"
                  js"1f9d1-1f3ff-200d-1f91d-200d-1f9d1-1f3ff.png" 49 53 js"12.0" ]> ∅)))).

Definition modifier (n : jsstring) (uni img : jsstring) (sx sy : number) (short : jsstring)
  (ch : jsstring) : IEmoji :=
  record n uni img sx sy short js"Skin Tones" js"skin-tone" ch None.

Definition skin_tone_2 : IEmoji :=
  modifier js"EMOJI MODIFIER FITZPATRICK TYPE-1-2" js"1F3FB" js"1f3fb.png" 8 42
    js"skin-tone-2" [0xD83C; 0xDFFB]%N.

Definition skin_tone_4 : IEmoji :=
  modifier js"EMOJI MODIFIER FITZPATRICK TYPE-4" js"1F3FD" js"1f3fd.png" 8 44
    js"skin-tone-4" [0xD83C; 0xDFFD]%N.

Definition skin_tone_6 : IEmoji :=
  modifier js"EMOJI MODIFIER FITZPATRICK TYPE-6" js"1F3FF" js"1f3ff.png" 8 46
    js"skin-tone-6" [0xD83C; 0xDFFF]%N.

Definition emojis : list IEmoji :=
  [ keycap_star; sa; grinning; smile; sob; wave; spock_hand;
    people_holding_hands; ski; skin_tone_2; skin_tone_4; skin_tone_6 ].

(** Records [emoji.json] does not have, for the corners of the code. *)



(** A modifier whose unified code is the name of a property that every
    object inherits. *)
Definition inherited_modifier : IEmoji :=
  modifier js"MODIFIER OF A CUSTOM SET" js"constructor" js"custom.png" 8 47
    js"skin-tone-7" [0xE000]%N.

(** A second record with the short name and the character of [smile]. *)
Definition smile_again : IEmoji :=
  record js"SMILE OF A CUSTOM SET" js"E001" js"custom-smile.png" 60 60 js"smile"
    js"Smileys & Emotion" js"face-smiling" [0xD83D; 0xDE04]%N None.

Definition lower : jsstring -> jsstring := JsString.asciiToLowerCase.

End Sample.

(** ** Vocabulary of the specification *)

(** [p] occurs in [s] as a contiguous run of units. *)
Definition occursIn (p s : jsstring) : Prop :=
  exists pre post, s = pre ++ p ++ post.

(** [n] is the position of the first occurrence of [p] in [s]. *)
Definition firstOccurrence (p s : jsstring) (n : nat) : Prop :=
  JsString.startsWith (drop n s) p = true /\
  forall m, (m < n)%nat -> JsString.startsWith (drop m s) p = false.

(** "Strips all leading and trailing colon characters", in the words of
    the specification. *)
Definition trimColons (s : jsstring) : jsstring :=
  rev (Pattern.skipColons (rev (Pattern.skipColons s))).

(** A name without a colon at either end. *)
Definition plainName (n : jsstring) : Prop :=
  head n <> Some 58%N /\ last n <> Some 58%N.

(** The order [searchEmoji] promises for a query [q]: position of the
    match first, length of the short name second. *)
Definition byPositionThenLength (q : jsstring) (a b : IEmoji) : Prop :=
  let pos e := JsString.indexOf (short_name e) q in
  let len e := JsString.length (short_name e) in
  pos a < pos b \/ (pos a = pos b /\ len a <= len b).

(** The records a search for [q] keeps. *)
Definition matches (q : jsstring) (e : IEmoji) : bool :=
  (0 <=? JsString.indexOf (short_name e) q)
  && negb (0 <=? JsString.indexOf (short_name e) js"skin-tone-").

(** The number a grid position of the sprite sheet is stored as. *)
Fixpoint gridNumber (n : nat) : number :=
  match n with
  | O => 0%float
  | S k => (gridNumber k + 1)%float
  end.

(** The pieces joined again with single spaces. *)
Fixpoint joinWithSpaces (parts : list jsstring) : jsstring :=
  match parts with
  | [] => []
  | [part] => part
  | part :: rest => part ++ 32%N :: joinWithSpaces rest
  end.

(** A percentage. *)
Definition inPercentRange (v : number) : bool :=
  PrimFloat.leb 0 v && PrimFloat.leb v 100.

(** A string of 16-bit units, as every string of the language is. *)
Definition sixteenBit (s : jsstring) : bool := forallb (fun u => N.ltb u 0x10000) s.

(** A character of the dataset as the generated pattern expects it: not
    empty, made of 16-bit units, and a literal once its star is escaped
    (no other syntax character of the pattern language, one star at
    most). *)
Definition patternSafe (c : jsstring) : bool :=
  match c with
  | [] => false
  | _ :: _ => sixteenBit c && Pattern.literalSource c
  end.

(** The end of [c] followed by [r] falls inside a surrogate pair: a
    pattern read by code points cannot end there. *)
Definition splitsPair (c r : jsstring) : bool :=
  match last c, head r with
  | Some h, Some l => JsString.isHighSurrogate h && JsString.isLowSurrogate l
  | _, _ => false
  end.

(** [c] begins [text] and ends where a code point of [text] ends. *)
Definition beginsWith (c text : jsstring) : Prop :=
  exists r, text = c ++ r /\ splitsPair c r = false.

(** [skin-tone-<digits>] matches [s] at position [i], its digits being
    [N]: the literal, then [N], all the digits there are. *)
Definition toneAt (s : jsstring) (i : nat) (N : jsstring) : Prop :=
  exists post,
    drop i s = js"skin-tone-" ++ N ++ post
    /\ N <> []
    /\ forallb Pattern.isDigit N = true
    /\ (forall c post', post = c :: post' -> Pattern.isDigit c = false).

(** [N] are the digits of the leftmost match of [skin-tone-<digits>] in
    [s]. *)
Definition leftmostTone (s : jsstring) (N : jsstring) : Prop :=
  exists i, toneAt s i N /\ forall j M, (j < i)%nat -> ~ toneAt s j M.

(** The descriptor of a variation record. *)
Definition variationDescriptor (f : SkinVariationData) : EmojiImage :=
  {| ei_x := (sv_sheet_x f * (100 / (61 - 1)))%float;
     ei_y := (sv_sheet_y f * (100 / (61 - 1)))%float;
     sheetSizeX := 6100%float;
     sheetSizeY := 6100%float;
     ei_image := Some (sv_image f) |}.

(** The records that tie with each other in a search for [q]: same
    position [i] of the match, same length [n] of the short name. *)
Definition tied (q : jsstring) (i n : Z) (e : IEmoji) : bool :=
  (JsString.indexOf (short_name e) q =? i) && (JsString.length (short_name e) =? n).

(** The order a stable sort by [key] leaves on a list that was in the
    order [R] before: [key] first, [R] among equal keys. *)
Definition thenBy {A : Type} (key : A -> Z) (R : A -> A -> Prop) (a b : A) : Prop :=
  key a < key b \/ (key a = key b /\ R a b).

(** Two numbers are told apart by comparing both with zero. *)
Ltac positive_not_zero :=
  let H := fresh in
  intros H; apply (f_equal (fun v => PrimFloat.ltb 0 v)) in H;
  vm_compute in H; discriminate H.

(** * Properties *)

(** ** Strings *)

Lemma eqb_eq (a b : jsstring) : JsString.eqb a b = true <-> a = b.
Proof.
  revert b. induction a as [|c a IH]; intros [|d b]; simpl; split;
    try congruence; try reflexivity.
  - intros H. apply andb_prop in H as [H1 H2].
    apply N.eqb_eq in H1. apply IH in H2. congruence.
  - intros H. injection H as -> ->. rewrite N.eqb_refl. simpl. now apply IH.
Qed.

Lemma startsWith_prefix (s p : jsstring) :
  JsString.startsWith s p = true <-> exists post, s = p ++ post.
Proof.
  revert s. induction p as [|c p IH]; intros s; simpl.
  - split; [intros _; now exists s | reflexivity].
  - destruct s as [|d s].
    + split; [discriminate | intros [post H]; discriminate].
    + split.
      * intros H. apply andb_prop in H as [H1 H2].
        apply N.eqb_eq in H1. apply IH in H2 as [post ->].
        exists post. now subst.
      * intros [post H]. injection H as -> ->.
        rewrite N.eqb_refl. simpl. apply IH. now exists post.
Qed.

Lemma startsWith_app (p post : jsstring) : JsString.startsWith (p ++ post) p = true.
Proof. apply startsWith_prefix. now exists post. Qed.

Lemma indexOfFrom_bounds (i : Z) (s p : jsstring) :
  0 <= i ->
  JsString.indexOfFrom i s p = -1 \/
  (i <= JsString.indexOfFrom i s p <= i + JsString.length s).
Proof.
  revert i. induction s as [|c s IH]; intros i Hi; simpl.
  - destruct (JsString.startsWith [] p); [right | left]; unfold JsString.length; simpl; lia.
  - destruct (JsString.startsWith (c :: s) p).
    + right. unfold JsString.length. simpl. lia.
    + destruct (IH (i + 1) ltac:(lia)) as [H | H]; [now left | right].
      unfold JsString.length in *. simpl. lia.
Qed.

Lemma indexOfFrom_shift (i : Z) (s p : jsstring) :
  0 <= i ->
  JsString.indexOfFrom i s p =
  if JsString.indexOf s p =? -1 then -1 else i + JsString.indexOf s p.
Proof.
  unfold JsString.indexOf. revert i. induction s as [|c s IH]; intros i Hi; simpl.
  - destruct (JsString.startsWith [] p); simpl; lia.
  - destruct (JsString.startsWith (c :: s) p); simpl; [lia|].
    rewrite (IH (i + 1)) by lia. rewrite (IH (0 + 1)) by lia.
    destruct (JsString.indexOfFrom 0 s p =? -1) eqn:E; simpl; [reflexivity|].
    apply Z.eqb_neq in E.
    destruct (indexOfFrom_bounds 0 s p ltac:(lia)) as [H | H]; [contradiction|].
    replace (0 + 1 + JsString.indexOfFrom 0 s p =? -1) with false
      by (symmetry; apply Z.eqb_neq; lia).
    lia.
Qed.

Lemma indexOf_bounds (s p : jsstring) :
  JsString.indexOf s p = -1 \/ 0 <= JsString.indexOf s p <= JsString.length s.
Proof.
  destruct (indexOfFrom_bounds 0 s p ltac:(lia)) as [H | H]; [now left | right].
  unfold JsString.indexOf. lia.
Qed.

Lemma indexOf_cons (c : N) (s p : jsstring) :
  JsString.indexOf (c :: s) p =
  if JsString.startsWith (c :: s) p then 0
  else if JsString.indexOf s p =? -1 then -1 else 1 + JsString.indexOf s p.
Proof.
  unfold JsString.indexOf at 1. simpl.
  destruct (JsString.startsWith (c :: s) p); [reflexivity|].
  now rewrite indexOfFrom_shift by lia.
Qed.

(** [indexOf] finds the first occurrence. *)
Lemma indexOf_first (s p : jsstring) (n : nat) :
  JsString.indexOf s p = Z.of_nat n <-> firstOccurrence p s n.
Proof.
  revert n. induction s as [|c s IH]; intros n.
  - unfold JsString.indexOf, firstOccurrence. simpl.
    destruct (JsString.startsWith [] p) eqn:E; split.
    + intros H. assert (n = 0%nat) as -> by lia. simpl. split; [exact E | intros; lia].
    + intros [_ H]. destruct n; [reflexivity|].
      specialize (H 0%nat ltac:(lia)). simpl in H. congruence.
    + lia.
    + intros [H _]. rewrite drop_nil in H. congruence.
  - rewrite indexOf_cons. unfold firstOccurrence.
    destruct (JsString.startsWith (c :: s) p) eqn:E; cbv iota.
    + split.
      * intros H. assert (n = 0%nat) as -> by lia. simpl. split; [exact E | intros; lia].
      * intros [_ H]. destruct n; [reflexivity|].
        specialize (H 0%nat ltac:(lia)). simpl in H. congruence.
    + destruct (indexOf_bounds s p) as [Hb | Hb].
      * rewrite Hb. simpl. split; [lia|].
        intros [H1 H2]. destruct n; [simpl in H1; congruence|].
        simpl in H1.
        assert (firstOccurrence p s n) as Hf.
        { split; [exact H1|]. intros m Hm. apply (H2 (S m)). lia. }
        apply IH in Hf. lia.
      * replace (JsString.indexOf s p =? -1) with false
          by (symmetry; apply Z.eqb_neq; lia).
        split.
        -- intros H. destruct n; [lia|].
           assert (JsString.indexOf s p = Z.of_nat n) as Hn by lia.
           apply IH in Hn as [H1 H2]. split; [exact H1|].
           intros [|m] Hm; [exact E | apply H2; lia].
        -- intros [H1 H2]. destruct n; [simpl in H1; congruence|].
           simpl in H1.
           assert (firstOccurrence p s n) as Hf.
           { split; [exact H1|]. intros m Hm. apply (H2 (S m)). lia. }
           apply IH in Hf. lia.
Qed.

(** [indexOf] is not [-1] exactly when there is an occurrence. *)
Lemma indexOf_occursIn (s p : jsstring) :
  0 <= JsString.indexOf s p <-> occursIn p s.
Proof.
  split.
  - intros H. destruct (indexOf_bounds s p) as [Hb | Hb]; [lia|].
    assert (JsString.indexOf s p = Z.of_nat (Z.to_nat (JsString.indexOf s p))) as Hn by lia.
    apply indexOf_first in Hn as [H1 _].
    apply startsWith_prefix in H1 as [post Hpost].
    exists (take (Z.to_nat (JsString.indexOf s p)) s), post.
    rewrite <- Hpost. now rewrite take_drop.
  - intros [pre [post ->]]. induction pre as [|c pre IH].
    + simpl. unfold JsString.indexOf.
      destruct (p ++ post) eqn:E; simpl.
      * destruct p; [simpl; lia | discriminate].
      * rewrite <- E. rewrite startsWith_app. lia.
    + simpl. rewrite indexOf_cons.
      destruct (JsString.startsWith (c :: pre ++ p ++ post) p); [lia|].
      destruct (JsString.indexOf (pre ++ p ++ post) p =? -1) eqn:E; [|lia].
      apply Z.eqb_eq in E. lia.
Qed.

Lemma indexOf_absent (s p : jsstring) :
  JsString.indexOf s p = -1 <-> ~ occursIn p s.
Proof.
  rewrite <- indexOf_occursIn.
  destruct (indexOf_bounds s p) as [H | H]; lia.
Qed.

(** ** Stable sorting *)

Section Sorting.

Context {A : Type}.

Lemma insertBy_perm (cmp : A -> A -> Z) (a : A) (l : list A) :
  Permutation (JsArray.insertBy cmp a l) (a :: l).
Proof.
  induction l as [|b l IH]; simpl; [reflexivity|].
  destruct (cmp a b <=? 0); [reflexivity|].
  rewrite IH. apply perm_swap.
Qed.

Lemma sort_perm (cmp : A -> A -> Z) (l : list A) :
  Permutation (JsArray.sort cmp l) l.
Proof.
  induction l as [|a l IH]; simpl; [reflexivity|].
  unfold JsArray.sort in *. simpl. rewrite insertBy_perm. now constructor.
Qed.

Lemma sort_length (cmp : A -> A -> Z) (l : list A) :
  length (JsArray.sort cmp l) = length l.
Proof. apply Permutation_length, sort_perm. Qed.

Lemma thenBy_key (key : A -> Z) (R : A -> A -> Prop) (a b : A) :
  thenBy key R a b -> key a <= key b.
Proof. unfold thenBy. lia. Qed.

Lemma insertBy_sorted (key : A -> Z) (R : A -> A -> Prop) (a : A) (l : list A) :
  StronglySorted (thenBy key R) l ->
  Forall (R a) l ->
  StronglySorted (thenBy key R) (JsArray.insertBy (fun u v => key u - key v) a l).
Proof.
  induction l as [|b l IH]; intros Hs Ha; simpl.
  - constructor; constructor.
  - apply StronglySorted_inv in Hs as [Hs Hb].
    destruct (Z.leb_spec (key a - key b) 0) as [Hle | Hgt].
    + constructor; [constructor; assumption|].
      rewrite List.Forall_forall in Ha, Hb. apply List.Forall_forall. intros c Hc.
      specialize (Ha c Hc).
      assert (key a <= key c) as Hk.
      { destruct Hc as [-> | Hc]; [lia|].
        specialize (Hb c Hc). apply thenBy_key in Hb. lia. }
      unfold thenBy.
      destruct (Z.eq_dec (key a) (key c)); [right; split; assumption | left; lia].
    + apply Forall_cons_iff in Ha as [_ Ha].
      constructor; [now apply IH|].
      eapply Permutation_Forall; [symmetry; apply insertBy_perm|].
      constructor; [unfold thenBy; lia | exact Hb].
Qed.

(** A stable sort by [key] of a list in the order [R] is in the order
    "[key], then [R]". *)
Lemma sort_sorted (key : A -> Z) (R : A -> A -> Prop) (l : list A) :
  StronglySorted R l ->
  StronglySorted (thenBy key R) (JsArray.sort (fun u v => key u - key v) l).
Proof.
  induction l as [|a l IH]; intros Hs.
  - constructor.
  - apply StronglySorted_inv in Hs as [Hs Ha].
    unfold JsArray.sort. simpl. apply insertBy_sorted; [now apply IH|].
    eapply Permutation_Forall; [symmetry; apply sort_perm | exact Ha].
Qed.

Lemma any_order (l : list A) : StronglySorted (fun _ _ => True) l.
Proof.
  induction l; constructor; [assumption|]. apply List.Forall_forall. trivial.
Qed.

Lemma StronglySorted_weaken (R R' : A -> A -> Prop) (P : A -> Prop) (l : list A) :
  (forall a b, P a -> P b -> R a b -> R' a b) ->
  Forall P l -> StronglySorted R l -> StronglySorted R' l.
Proof.
  intros HR HP Hs. induction Hs as [|a l Hs IH Ha]; [constructor|].
  apply Forall_cons_iff in HP as [Pa HP].
  constructor; [now apply IH|].
  rewrite List.Forall_forall in *. intros b Hb. apply HR; auto.
Qed.

Lemma StronglySorted_map {B : Type} (f : A -> B) (R : B -> B -> Prop) (l : list A) :
  StronglySorted (fun a b => R (f a) (f b)) l -> StronglySorted R (map f l).
Proof.
  intros Hs. induction Hs as [|a l Hs IH Ha]; simpl; [constructor|].
  constructor; [exact IH|].
  rewrite List.Forall_forall in *. intros b Hb.
  apply in_map_iff in Hb as [c [<- Hc]]. now apply Ha.
Qed.

Lemma slice0_nonneg (l : list A) (e : Z) :
  0 <= e -> JsArray.slice0 l e = take (Z.to_nat e) l.
Proof.
  intros He. unfold JsArray.slice0.
  replace (e <? 0) with false by (symmetry; apply Z.ltb_ge; lia).
  destruct (Z.min_spec e (Z.of_nat (length l))) as [[H ->] | [H ->]]; [reflexivity|].
  rewrite Nat2Z.id. rewrite firstn_all. symmetry. apply firstn_all2. lia.
Qed.

Lemma slice0_negative (l : list A) (e : Z) :
  e < 0 -> JsArray.slice0 l e = take (length l - Z.to_nat (- e)) l.
Proof.
  intros He. unfold JsArray.slice0.
  replace (e <? 0) with true by (symmetry; apply Z.ltb_lt; lia).
  f_equal. lia.
Qed.

End Sorting.

(** ** [findImage] *)

(** C3: with no modifier, or when the base record has no skin variations,
    the descriptor has the sheet sizes 100 x 61 = 6100, the grid position
    of the base record scaled by 100 / (61 - 1), and the image of the
    base record. *)
Theorem findImage_base (actual : IEmoji) (variation : option IEmoji) :
  variation = None \/ skin_variations actual = None ->
  findImage actual variation =
    {| ei_x := (sheet_x actual * (100 / (sheetColumns - 1)))%float;
       ei_y := (sheet_y actual * (100 / (sheetRows - 1)))%float;
       sheetSizeX := (100 * sheetColumns)%float;
       sheetSizeY := (100 * sheetRows)%float;
       ei_image := Some (image actual) |}
  /\ sheetColumns = 61%float /\ sheetRows = 61%float
  /\ (100 * sheetColumns)%float = 6100%float
  /\ (100 * sheetRows)%float = 6100%float.
Proof.
  intros H. split; [|repeat split; reflexivity].
  unfold findImage.
  destruct H as [-> | ->]; [destruct (skin_variations actual)|]; reflexivity.
Qed.

Lemma findImage_base_witness :
  findImage Sample.smile None =
    {| ei_x := 53.333333333333336%float;
       ei_y := 83.33333333333334%float;
       sheetSizeX := 6100%float;
       sheetSizeY := 6100%float;
       ei_image := Some js"1f604.png" |}.
Proof.
  destruct (findImage_base Sample.smile None) as [H _]; [left; reflexivity|].
  rewrite H. vm_compute. reflexivity.
Defined.

(** The scale is computed first, as in the source: in binary64 the
    product with the scale and the quotient of the product differ at
    [sheet_y = 50], and the README shows the former. *)
Example scale_before_product :
  (50 * (100 / (61 - 1)))%float = 83.33333333333334%float
  /\ ((50 * 100) / (61 - 1))%float = 83.33333333333333%float.
Proof. split; vm_compute; reflexivity. Qed.

(** The composite key is no name of [Object.prototype]: none of them
    has a hyphen. *)
Lemma composite_not_inherited (u : jsstring) :
  existsb (JsString.eqb (u ++ js"-" ++ u)) objectPrototypeNames = false.
Proof.
  destruct (existsb (JsString.eqb (u ++ js"-" ++ u)) objectPrototypeNames) eqn:E;
    [|reflexivity].
  apply existsb_exists in E as [n [Hn E]]. apply eqb_eq in E.
  assert (In 45%N n) as H45.
  { rewrite <- E. apply in_or_app. right. now left. }
  exfalso. revert H45. unfold objectPrototypeNames in Hn. cbn [In] in Hn.
  repeat (destruct Hn as [<- | Hn]; [vm_compute; intuition discriminate|]).
  destruct Hn.
Qed.

Lemma inherited_In (u : jsstring) :
  existsb (JsString.eqb u) objectPrototypeNames = true <-> In u objectPrototypeNames.
Proof.
  rewrite existsb_exists. split.
  - intros [n [Hn E]]. apply eqb_eq in E. now subst n.
  - intros H. exists u. split; [exact H | now apply eqb_eq].
Qed.



(** C4, as the code has it: for a base record with skin variations and
    a modifier record with the unified code [u], [findImage] reads the
    property [u] of the object of the variations, and the property
    [u-u] when that is undefined.  A variation stored under [u], else
    under [u-u], gives its descriptor; when neither is stored the
    descriptor has the coordinates (0, 0), the empty image and the full
    sheet sizes -- unless [u] is the name of a property the object
    inherits from [Object.prototype]: the inherited value is then taken
    for the variation, and the descriptor has the coordinates NaN and no
    image at all.  [findImage] is a total function: there is no input
    on which it fails. *)
Theorem findImage_variation (actual variation : IEmoji)
  (vars : gmap jsstring SkinVariationData) :
  skin_variations actual = Some vars ->
  let u := unified variation in
  let fallback :=
    {| ei_x := 0%float; ei_y := 0%float;
       sheetSizeX := 6100%float; sheetSizeY := 6100%float;
       ei_image := Some [] |} in
  let broken :=
    {| ei_x := nan; ei_y := nan;
       sheetSizeX := 6100%float; sheetSizeY := 6100%float;
       ei_image := None |} in
  (forall f, vars !! u = Some f ->
     findImage actual (Some variation) = variationDescriptor f)
  /\ (forall f, vars !! u = None -> ~ In u objectPrototypeNames ->
        vars !! (u ++ js"-" ++ u) = Some f ->
        findImage actual (Some variation) = variationDescriptor f)
  /\ (vars !! u = None -> ~ In u objectPrototypeNames ->
      vars !! (u ++ js"-" ++ u) = None ->
      findImage actual (Some variation) = fallback)
  /\ (vars !! u = None -> In u objectPrototypeNames ->
      findImage actual (Some variation) = broken
      /\ findImage actual (Some variation) <> fallback).
Proof.
  intros Hv u fallback broken. unfold findImage. rewrite Hv.
  unfold foundEmoji, getProperty. fold u.
  rewrite composite_not_inherited.
  split; [|split; [|split]].
  - intros f ->. reflexivity.
  - intros f -> Hi ->.
    destruct (existsb (JsString.eqb u) objectPrototypeNames) eqn:E; [|reflexivity].
    apply inherited_In in E. contradiction.
  - intros -> Hi ->.
    destruct (existsb (JsString.eqb u) objectPrototypeNames) eqn:E; [|reflexivity].
    apply inherited_In in E. contradiction.
  - intros -> Hi. apply inherited_In in Hi. rewrite Hi. cbn [jsOr].
    split; [reflexivity|]. discriminate.
Qed.

(** The failing input: [wave] has variations, none under
    ["constructor"], and the descriptor is neither that of a variation
    nor the fallback. *)
Lemma findImage_variation_witness :
  findImage Sample.wave (Some Sample.inherited_modifier) =
    {| ei_x := nan; ei_y := nan;
       sheetSizeX := 6100%float; sheetSizeY := 6100%float;
       ei_image := None |}
  /\ findImage Sample.wave (Some Sample.inherited_modifier) <>
       {| ei_x := 0%float; ei_y := 0%float;
          sheetSizeX := 6100%float; sheetSizeY := 6100%float;
          ei_image := Some [] |}.
Proof.
  pose proof (findImage_variation Sample.wave Sample.inherited_modifier _ eq_refl) as H.
  cbv zeta in H. destruct H as [_ [_ [_ H]]].
  apply H; [vm_compute; reflexivity | vm_compute; tauto].
Defined.

(** The composite key at work: the variations of [people_holding_hands]
    are stored under pairs of codes, and tone 6 selects the entry
    ["1F3FF-1F3FF"]. *)
Example findImage_composite :
  findImage Sample.people_holding_hands (Some Sample.skin_tone_6) =
    {| ei_x := (49 * (100 / (61 - 1)))%float;
       ei_y := (53 * (100 / (61 - 1)))%float;
       sheetSizeX := 6100%float;
       sheetSizeY := 6100%float;
       ei_image := Some js"1f9d1-1f3ff-200d-1f91d-200d-1f9d1-1f3ff.png" |}.
Proof. vm_compute. reflexivity. Qed.

(** A missing combination: [wave] has no variation for tone 6. *)
Example findImage_missing :
  findImage Sample.wave (Some Sample.skin_tone_6) =
    {| ei_x := 0%float; ei_y := 0%float;
       sheetSizeX := 6100%float; sheetSizeY := 6100%float; ei_image := Some [] |}.
Proof. vm_compute. reflexivity. Qed.

(** ** [searchEmoji] *)

Lemma gtb_minus_one (i : Z) : (i >? -1) = (0 <=? i).
Proof.
  destruct (Z.leb_spec 0 i); [apply Z.gtb_lt | rewrite Z.gtb_ltb; apply Z.ltb_ge]; lia.
Qed.

Lemma hasSkinTone_Some (s : jsstring) :
  hasSkinTone (Some s) = (0 <=? JsString.indexOf s js"skin-tone-").
Proof. unfold hasSkinTone. apply gtb_minus_one. Qed.

(** [hasSkinTone] is containment of the literal. *)
Lemma hasSkinTone_occursIn (s : jsstring) :
  hasSkinTone (Some s) = true <-> occursIn js"skin-tone-" s.
Proof. rewrite hasSkinTone_Some, Z.leb_le. apply indexOf_occursIn. Qed.

Lemma matches_spec (q : jsstring) (e : IEmoji) :
  matches q e = true <->
  occursIn q (short_name e) /\ ~ occursIn js"skin-tone-" (short_name e).
Proof.
  unfold matches. rewrite andb_true_iff, negb_true_iff, Z.leb_le, Z.leb_gt.
  rewrite indexOf_occursIn, <- (indexOf_occursIn (short_name e) js"skin-tone-").
  rewrite Z.nle_gt. reflexivity.
Qed.

Lemma hits_emoji (emojis : list IEmoji) (q : jsstring) :
  map emoji (hits emojis q) = List.filter (matches q) emojis.
Proof.
  unfold hits. cbv zeta. induction emojis as [|e l IH]; cbn [flat_map]; [reflexivity|].
  rewrite map_app, IH. unfold matches. cbn [List.filter].
  rewrite gtb_minus_one, hasSkinTone_Some.
  destruct ((0 <=? JsString.indexOf (short_name e) q)
            && negb (0 <=? JsString.indexOf (short_name e) js"skin-tone-"));
    reflexivity.
Qed.

Lemma hits_index (emojis : list IEmoji) (q : jsstring) :
  Forall (fun h => index h = JsString.indexOf (short_name (emoji h)) q) (hits emojis q).
Proof.
  unfold hits. cbv zeta. induction emojis as [|e l IH]; cbn [flat_map]; [constructor|].
  apply Forall_app. split; [|exact IH].
  destruct ((JsString.indexOf (short_name e) q >? -1)
            && negb (hasSkinTone (Some (short_name e)))); repeat constructor.
Qed.

Lemma ranked_perm (emojis : list IEmoji) (q : jsstring) :
  Permutation (ranked emojis q) (List.filter (matches q) emojis).
Proof.
  unfold ranked. rewrite <- hits_emoji. apply Permutation_map.
  now rewrite !sort_perm.
Qed.

Lemma ranked_sorted (emojis : list IEmoji) (q : jsstring) :
  StronglySorted (byPositionThenLength q) (ranked emojis q).
Proof.
  unfold ranked. apply StronglySorted_map.
  eapply StronglySorted_weaken with
    (P := fun h => index h = JsString.indexOf (short_name (emoji h)) q);
    [| | apply (sort_sorted index), (sort_sorted (fun h => JsString.length (short_name (emoji h)))),
         any_order].
  - intros a b Ha Hb H. unfold byPositionThenLength, thenBy in *.
    rewrite <- Ha, <- Hb. lia.
  - eapply Permutation_Forall; [| apply hits_index].
    symmetry. now rewrite !sort_perm.
Qed.

Lemma ranked_In (emojis : list IEmoji) (q : jsstring) (e : IEmoji) :
  In e (ranked emojis q) <->
  In e emojis /\ occursIn q (short_name e) /\ ~ occursIn js"skin-tone-" (short_name e).
Proof.
  rewrite <- matches_spec, <- filter_In.
  split; apply Permutation_in; [|symmetry]; apply ranked_perm.
Qed.

(** C1: for a limit that is not negative, [searchEmoji] returns the first
    [limit] entries of a list that holds exactly the records of the
    dataset whose short name contains the query and does not contain
    ["skin-tone-"], in the order of the position of the first occurrence
    of the query, then of the length of the short name. *)
Theorem searchEmoji_ranked (emojis : list IEmoji) (q : jsstring) (limit : Z) :
  0 <= limit ->
  searchEmoji emojis q limit = take (Z.to_nat limit) (ranked emojis q)
  /\ Permutation (ranked emojis q) (List.filter (matches q) emojis)
  /\ (forall e, In e (ranked emojis q) <->
                In e emojis /\ occursIn q (short_name e)
                /\ ~ occursIn js"skin-tone-" (short_name e))
  /\ StronglySorted (byPositionThenLength q) (ranked emojis q)
  /\ (length (searchEmoji emojis q limit) <= Z.to_nat limit)%nat.
Proof.
  intros Hl. unfold searchEmoji. rewrite slice0_nonneg by exact Hl.
  split; [reflexivity|]. split; [apply ranked_perm|].
  split; [intros e; apply ranked_In|]. split; [apply ranked_sorted|].
  rewrite length_take. lia.
Qed.

Lemma searchEmoji_ranked_witness :
  map short_name (searchEmoji Sample.emojis js"s" 4) = [js"sa"; js"sob"; js"ski"; js"smile"].
Proof.
  destruct (searchEmoji_ranked Sample.emojis js"s" 4 ltac:(lia)) as [H _].
  rewrite H. vm_compute. reflexivity.
Defined.

(** C10: for a negative limit, [searchEmoji] returns the matches in
    their order without the last [|limit|] of them (without all of them
    when there are fewer): the result, followed by what was dropped, is
    the list of exactly the records of the dataset whose short name
    contains the query and does not contain ["skin-tone-"], in the order
    of the position of the first occurrence of the query, then of the
    length of the short name. *)
Theorem searchEmoji_negative (emojis : list IEmoji) (q : jsstring) (limit : Z) :
  limit < 0 ->
  exists sorted dropped,
    sorted = searchEmoji emojis q limit ++ dropped
    /\ Permutation sorted (List.filter (matches q) emojis)
    /\ (forall e, In e sorted <->
                  In e emojis /\ occursIn q (short_name e)
                  /\ ~ occursIn js"skin-tone-" (short_name e))
    /\ StronglySorted (byPositionThenLength q) sorted
    /\ length dropped = Nat.min (Z.to_nat (- limit)) (length sorted)
    /\ length (searchEmoji emojis q limit) = (length sorted - Z.to_nat (- limit))%nat
    /\ sorted = ranked emojis q.
Proof.
  intros Hl. unfold searchEmoji. rewrite slice0_negative by exact Hl.
  exists (ranked emojis q),
         (drop (length (ranked emojis q) - Z.to_nat (- limit)) (ranked emojis q)).
  split; [now rewrite take_drop|]. split; [apply ranked_perm|].
  split; [intros e; apply ranked_In|]. split; [apply ranked_sorted|].
  split; [rewrite length_drop; lia|]. split; [rewrite length_take; lia | reflexivity].
Qed.

(** Seven records of the sample match ["s"]; with the limit -2 the last
    two of them are dropped. *)
Lemma searchEmoji_negative_witness :
  exists dropped,
    length dropped = 2%nat
    /\ map short_name (searchEmoji Sample.emojis js"s" (-2) ++ dropped) =
       [js"sa"; js"sob"; js"ski"; js"smile"; js"spock-hand"; js"keycap_star";
        js"people_holding_hands"].
Proof.
  destruct (searchEmoji_negative Sample.emojis js"s" (-2) ltac:(lia))
    as [sorted [dropped [Hs [_ [_ [_ [Hlen [_ Hr]]]]]]]].
  exists dropped. rewrite <- Hs. rewrite Hr in Hlen |- *.
  split; [rewrite Hlen|]; vm_compute; reflexivity.
Defined.

(** Seven records of the sample match ["s"]; a limit of -2 keeps the
    first five of them. *)
Example searchEmoji_minus_two :
  map short_name (ranked Sample.emojis js"s") =
    [js"sa"; js"sob"; js"ski"; js"smile"; js"spock-hand"; js"keycap_star";
     js"people_holding_hands"]
  /\ map short_name (searchEmoji Sample.emojis js"s" (-2)) =
    [js"sa"; js"sob"; js"ski"; js"smile"; js"spock-hand"].
Proof. split; vm_compute; reflexivity. Qed.

(** ** [getSkinInfo] *)

(** C9: when a skin tone name is given and contains ["skin-tone-"],
    [getSkinInfo] looks the modifier up under that name and returns the
    coordinates and the image of the descriptor [findImage] computes,
    with the unified code of the record and the skin tone name as short
    name; without a name, or with one that is no skin tone, it returns
    the five fields of the record itself. *)
Theorem getSkinInfo_spec (emojis : list IEmoji) (e : IEmoji) :
  (forall tone, occursIn js"skin-tone-" tone ->
     let pos := findImage e (emojiValMap emojis !! tone) in
     getSkinInfo emojis e (Some tone) =
       {| si_sheet_x := ei_x pos; si_sheet_y := ei_y pos;
          si_unified := unified e; si_short_name := tone;
          si_image := ei_image pos |})
  /\ (forall skinTone,
        (skinTone = None \/
         exists tone, skinTone = Some tone /\ ~ occursIn js"skin-tone-" tone) ->
        getSkinInfo emojis e skinTone =
          {| si_sheet_x := sheet_x e; si_sheet_y := sheet_y e;
             si_unified := unified e; si_short_name := short_name e;
             si_image := Some (image e) |}).
Proof.
  split.
  - intros tone Ht pos. apply hasSkinTone_occursIn in Ht.
    unfold getSkinInfo. rewrite Ht. reflexivity.
  - intros skinTone [-> | [tone [-> Ht]]]; [reflexivity|].
    unfold getSkinInfo.
    destruct (hasSkinTone (Some tone)) eqn:E; [|reflexivity].
    apply hasSkinTone_occursIn in E. contradiction.
Qed.

(** The two cases of the test suite: tone 6 of [people_holding_hands]
    and [smile] without a tone. *)
Lemma getSkinInfo_spec_witness :
  getSkinInfo Sample.emojis Sample.people_holding_hands (Some js"skin-tone-6") =
    {| si_sheet_x := (49 * (100 / (61 - 1)))%float;
       si_sheet_y := (53 * (100 / (61 - 1)))%float;
       si_unified := js"1F9D1-200D-1F91D-200D-1F9D1";
       si_short_name := js"skin-tone-6";
       si_image := Some js"1f9d1-1f3ff-200d-1f91d-200d-1f9d1-1f3ff.png" |}
  /\ getSkinInfo Sample.emojis Sample.smile None =
    {| si_sheet_x := 32%float; si_sheet_y := 50%float;
       si_unified := js"1F604"; si_short_name := js"smile";
       si_image := Some js"1f604.png" |}.
Proof.
  split.
  - destruct (getSkinInfo_spec Sample.emojis Sample.people_holding_hands) as [H _].
    rewrite (H js"skin-tone-6").
    + vm_compute. reflexivity.
    + apply indexOf_occursIn. vm_compute. discriminate.
  - destruct (getSkinInfo_spec Sample.emojis Sample.smile) as [_ H].
    rewrite (H None); [vm_compute; reflexivity | left; reflexivity].
Defined.

(** ** Stripping colons *)

Lemma forallb_rev {A : Type} (f : A -> bool) (l : list A) :
  forallb f (rev l) = forallb f l.
Proof.
  induction l as [|a l IH]; [reflexivity|].
  cbn [rev forallb]. rewrite forallb_app, IH. cbn [forallb].
  rewrite andb_true_r. apply andb_comm.
Qed.

Lemma head_rev {A : Type} (l : list A) : head (rev l) = last l.
Proof.
  destruct l as [|x l] using rev_ind; [reflexivity|].
  now rewrite rev_unit, last_snoc.
Qed.

Lemma skipColons_app (a b : jsstring) :
  Pattern.skipColons (a ++ b) =
  if forallb Pattern.isColon a then Pattern.skipColons b
  else Pattern.skipColons a ++ b.
Proof.
  induction a as [|c a IH]; simpl; [reflexivity|].
  destruct (Pattern.isColon c); simpl; [exact IH | reflexivity].
Qed.

Lemma skipColons_all (a : jsstring) :
  forallb Pattern.isColon a = true -> Pattern.skipColons a = [].
Proof.
  induction a as [|c a IH]; simpl; [reflexivity|].
  destruct (Pattern.isColon c); simpl; [exact IH | discriminate].
Qed.

Lemma colonsToEnd_all (s : jsstring) :
  Pattern.colonsToEnd s = match s with
                          | [] => false
                          | _ :: _ => forallb Pattern.isColon s
                          end.
Proof.
  induction s as [|c s IH]; [reflexivity|].
  cbn [Pattern.colonsToEnd forallb]. rewrite IH.
  destruct s; reflexivity.
Qed.

(** The scan for [(:+)$] removes the trailing colons. *)
Lemma replaceTail_spec (s : jsstring) :
  Pattern.replaceTail s = rev (Pattern.skipColons (rev s)).
Proof.
  induction s as [|c s IH]; [reflexivity|].
  cbn [Pattern.replaceTail]. rewrite colonsToEnd_all.
  cbn [rev]. rewrite skipColons_app, forallb_rev.
  cbn [forallb].
  destruct (Pattern.isColon c) eqn:Ec; cbn [andb].
  - destruct (forallb Pattern.isColon s) eqn:Es.
    + cbn [Pattern.skipColons]. rewrite Ec. reflexivity.
    + rewrite rev_app_distr. cbn [rev app]. now rewrite IH.
  - destruct (forallb Pattern.isColon s) eqn:Es.
    + cbn [Pattern.skipColons]. rewrite Ec. cbn [rev app].
      rewrite IH, skipColons_all; [reflexivity | now rewrite forallb_rev].
    + rewrite rev_app_distr. cbn [rev app]. now rewrite IH.
Qed.

(** The replacement [/^(:+)|(:+)$/g -> ''] strips all leading and all
    trailing colons. *)
Lemma replaceColons_trimColons (s : jsstring) :
  Pattern.replaceColons s = trimColons s.
Proof.
  unfold Pattern.replaceColons, trimColons.
  destruct s as [|c s]; [reflexivity|].
  rewrite !replaceTail_spec.
  destruct (Pattern.isColon c) eqn:Ec; [reflexivity|].
  cbn [Pattern.skipColons]. now rewrite Ec.
Qed.

Lemma skipColons_head (n : jsstring) :
  head n <> Some 58%N -> Pattern.skipColons n = n.
Proof.
  destruct n as [|c n]; [reflexivity|]. simpl. intros H.
  destruct (Pattern.isColon c) eqn:Ec; [|reflexivity].
  apply N.eqb_eq in Ec. congruence.
Qed.

Lemma trimColons_wrapped (n : jsstring) :
  plainName n -> trimColons (js":" ++ n ++ js":") = n.
Proof.
  intros [Hh Hl]. unfold trimColons.
  change (js":" ++ n ++ js":") with (58%N :: n ++ [58%N]).
  cbn [Pattern.skipColons]. change (Pattern.isColon 58) with true. cbv iota.
  rewrite skipColons_app.
  destruct (forallb Pattern.isColon n) eqn:En.
  - destruct n as [|c n]; [reflexivity|].
    simpl in En. apply andb_prop in En as [Ec _].
    apply N.eqb_eq in Ec. simpl in Hh. congruence.
  - rewrite (skipColons_head n) by exact Hh.
    rewrite rev_app_distr. cbn [rev app Pattern.skipColons].
    change (Pattern.isColon 58) with true. cbv iota.
    rewrite skipColons_head; [apply rev_involutive|].
    rewrite head_rev. exact Hl.
Qed.

(** C8: [getImageDataWithColon] is [getImageData] of the token without
    its leading and trailing colons; for a name that has none,
    [":" + n + ":"] gives what [n] gives. *)
Theorem getImageDataWithColon_spec (toLowerCase : jsstring -> jsstring)
  (emojis : list IEmoji) :
  (forall token,
     getImageDataWithColon toLowerCase emojis token =
     getImageData toLowerCase emojis (trimColons token))
  /\ (forall n, plainName n ->
        getImageDataWithColon toLowerCase emojis (js":" ++ n ++ js":") =
        getImageData toLowerCase emojis n).
Proof.
  split.
  - intros token. unfold getImageDataWithColon.
    now rewrite replaceColons_trimColons.
  - intros n Hn. unfold getImageDataWithColon.
    now rewrite replaceColons_trimColons, trimColons_wrapped.
Qed.

Lemma getImageDataWithColon_spec_witness :
  getImageDataWithColon Sample.lower Sample.emojis js":smile:" =
  getImageData Sample.lower Sample.emojis js"smile".
Proof.
  destruct (getImageDataWithColon_spec Sample.lower Sample.emojis) as [_ H].
  apply (H js"smile"). split; vm_compute; discriminate.
Defined.

Example replaceColons_runs :
  Pattern.replaceColons js"::spock-hand::skin-tone-4:::" = js"spock-hand::skin-tone-4"
  /\ Pattern.replaceColons js":::" = []
  /\ Pattern.replaceColons js"a:b" = js"a:b".
Proof. repeat split; vm_compute; reflexivity. Qed.

(** ** The name index *)

Lemma setNames_lookup (e : IEmoji) (names : list jsstring)
  (m : gmap jsstring IEmoji) (n : jsstring) :
  foldl (fun m' k => <[ k := e ]> m') m names !! n =
  if in_dec (List.list_eq_dec N.eq_dec) n names then Some e else m !! n.
Proof.
  revert m. induction names as [|k names IH]; intros m; [reflexivity|].
  cbn [foldl]. rewrite IH.
  destruct (in_dec _ n names) as [Hin | Hin];
    destruct (in_dec _ n (k :: names)) as [Hin' | Hin']; try reflexivity.
  - exfalso. apply Hin'. now right.
  - destruct Hin' as [-> | Hin']; [apply lookup_insert_eq | contradiction].
  - apply lookup_insert_ne. intros ->. apply Hin'. now left.
Qed.

Lemma setShortNames_lookup (m : gmap jsstring IEmoji) (e : IEmoji) (n : jsstring) :
  setShortNames m e !! n =
  if in_dec (List.list_eq_dec N.eq_dec) n (short_names e) then Some e else m !! n.
Proof. apply setNames_lookup. Qed.

Lemma foldl_setShortNames_None (l : list IEmoji) (m : gmap jsstring IEmoji) (n : jsstring) :
  foldl setShortNames m l !! n = None <->
  m !! n = None /\ forall e, In e l -> ~ In n (short_names e).
Proof.
  revert m. induction l as [|e l IH]; intros m; cbn [foldl].
  - split; [intros H; split; [exact H | intros e []] | intros [H _]; exact H].
  - rewrite IH, setShortNames_lookup.
    destruct (in_dec _ n (short_names e)) as [Hin | Hin]; split.
    + intros [H _]. discriminate.
    + intros [_ H]. exfalso. apply (H e); [now left | exact Hin].
    + intros [H1 H2]. split; [exact H1|]. intros e' [<- | He']; auto.
    + intros [H1 H2]. split; [exact H1|]. intros e' He'. apply H2. now right.
Qed.

(** A name resolves to nothing exactly when no record lists it. *)
Lemma emojiValMap_None (emojis : list IEmoji) (n : jsstring) :
  emojiValMap emojis !! n = None <->
  forall e, In e emojis -> ~ In n (short_names e).
Proof.
  unfold emojiValMap. rewrite foldl_setShortNames_None, lookup_empty. tauto.
Qed.

Lemma foldl_setShortNames_Some (l : list IEmoji) (m : gmap jsstring IEmoji)
  (n : jsstring) (e : IEmoji) :
  foldl setShortNames m l !! n = Some e ->
  m !! n = Some e \/ (In e l /\ In n (short_names e)).
Proof.
  revert m. induction l as [|e' l IH]; intros m; cbn [foldl]; [now left|].
  intros H. apply IH in H as [H | [H1 H2]].
  - rewrite setShortNames_lookup in H.
    destruct (in_dec _ n (short_names e')) as [Hin | Hin]; [|now left].
    injection H as <-. right. split; [now left | exact Hin].
  - right. split; [now right | exact H2].
Qed.

(** A name resolves to a record of the dataset that lists it. *)
Lemma emojiValMap_Some (emojis : list IEmoji) (n : jsstring) (e : IEmoji) :
  emojiValMap emojis !! n = Some e -> In e emojis /\ In n (short_names e).
Proof.
  intros H. apply foldl_setShortNames_Some in H as [H | H]; [|exact H].
  rewrite lookup_empty in H. discriminate.
Qed.

(** ** The pattern [/skin-tone-(\d+)/] on the compound form *)

Lemma startsWith_before_colon (b r p : jsstring) :
  forallb (fun u => negb (Pattern.isColon u)) p = true ->
  JsString.startsWith (b ++ 58%N :: r) p = true ->
  JsString.startsWith b p = true.
Proof.
  revert b. induction p as [|c p IH]; intros b Hp H; [reflexivity|].
  cbn [forallb] in Hp. apply andb_prop in Hp as [Hc Hp].
  destruct b as [|x b]; cbn [app JsString.startsWith] in *.
  - apply andb_prop in H as [H _]. apply N.eqb_eq in H. subst c.
    discriminate.
  - apply andb_prop in H as [H1 H2]. rewrite H1. cbn [andb]. now apply IH.
Qed.

Lemma digitsOf_before_colon (t r : jsstring) :
  Pattern.digitsOf t = [] -> Pattern.digitsOf (t ++ 58%N :: r) = [].
Proof.
  destruct t as [|x t]; cbn [app Pattern.digitsOf]; [reflexivity|].
  destruct (Pattern.isDigit x); [discriminate | reflexivity].
Qed.

Lemma skinToneAt_before_colon (b r : jsstring) :
  Pattern.skinToneAt b = None -> Pattern.skinToneAt (b ++ 58%N :: r) = None.
Proof.
  unfold Pattern.skinToneAt. intros H.
  destruct (JsString.startsWith (b ++ 58%N :: r) js"skin-tone-") eqn:E; [|reflexivity].
  apply startsWith_before_colon in E; [|reflexivity].
  rewrite E in H. apply startsWith_prefix in E as [t ->].
  change (drop 10 ((js"skin-tone-" ++ t) ++ 58%N :: r)) with (t ++ 58%N :: r).
  change (drop 10 (js"skin-tone-" ++ t)) with t in H.
  rewrite digitsOf_before_colon; [reflexivity|].
  destruct (Pattern.digitsOf t); [reflexivity | discriminate].
Qed.

(** In [b::skin-tone-d], with no earlier match inside [b], the pattern
    captures the digit [d]. *)
Lemma matchSkinTone_suffix (b : jsstring) (d : N) :
  Pattern.isDigit d = true ->
  Pattern.matchSkinTone b = None ->
  Pattern.matchSkinTone (b ++ js"::skin-tone-" ++ [d]) = Some [d].
Proof.
  intros Hd. induction b as [|c b IH]; intros Hb.
  - change ([] ++ js"::skin-tone-" ++ [d])
      with (58%N :: 58%N :: js"skin-tone-" ++ [d]).
    cbn [Pattern.matchSkinTone].
    change (Pattern.skinToneAt (58%N :: 58%N :: js"skin-tone-" ++ [d])) with (@None jsstring).
    change (Pattern.skinToneAt (58%N :: js"skin-tone-" ++ [d])) with (@None jsstring).
    cbv iota.
    change (js"skin-tone-" ++ [d]) with (115%N :: tail (js"skin-tone-" ++ [d])).
    cbn [Pattern.matchSkinTone].
    change (115%N :: tail (js"skin-tone-" ++ [d])) with (js"skin-tone-" ++ [d]).
    unfold Pattern.skinToneAt. rewrite startsWith_app.
    change (drop 10 (js"skin-tone-" ++ [d])) with [d].
    cbn [Pattern.digitsOf]. rewrite Hd. reflexivity.
  - cbn [Pattern.matchSkinTone] in Hb.
    destruct (Pattern.skinToneAt (c :: b)) eqn:E; [discriminate|].
    change ((c :: b) ++ js"::skin-tone-" ++ [d])
      with (c :: b ++ js"::skin-tone-" ++ [d]).
    cbn [Pattern.matchSkinTone].
    change (c :: b ++ js"::skin-tone-" ++ [d])
      with ((c :: b) ++ 58%N :: (58%N :: js"skin-tone-" ++ [d])).
    rewrite skinToneAt_before_colon by exact E.
    now apply IH.
Qed.

(** *** The leftmost match *)

Lemma digitsOf_spec (t : jsstring) :
  exists post,
    t = Pattern.digitsOf t ++ post
    /\ forallb Pattern.isDigit (Pattern.digitsOf t) = true
    /\ (forall c post', post = c :: post' -> Pattern.isDigit c = false).
Proof.
  induction t as [|c t [post [H1 [H2 H3]]]].
  - exists []. repeat split. intros; discriminate.
  - cbn [Pattern.digitsOf]. destruct (Pattern.isDigit c) eqn:E.
    + exists post. cbn [app forallb]. rewrite E, H2.
      split; [now rewrite <- H1|]. split; [reflexivity | exact H3].
    + exists (c :: t). split; [reflexivity|]. split; [reflexivity|].
      intros c' post' H. injection H as <- <-. exact E.
Qed.

Lemma digitsOf_unique (N post : jsstring) :
  forallb Pattern.isDigit N = true ->
  (forall c post', post = c :: post' -> Pattern.isDigit c = false) ->
  Pattern.digitsOf (N ++ post) = N.
Proof.
  intros HN Hpost. induction N as [|d N IH]; cbn [app].
  - destruct post as [|c post']; [reflexivity|].
    cbn [Pattern.digitsOf]. now rewrite (Hpost c post' eq_refl).
  - cbn [forallb] in HN. apply andb_prop in HN as [Hd HN].
    cbn [Pattern.digitsOf]. now rewrite Hd, IH.
Qed.

(** One attempt of the pattern, in words. *)
Lemma skinToneAt_toneAt (s N : jsstring) :
  Pattern.skinToneAt s = Some N <-> toneAt s 0 N.
Proof.
  unfold toneAt. rewrite drop_0. split.
  - unfold Pattern.skinToneAt.
    destruct (JsString.startsWith s js"skin-tone-") eqn:E; [|discriminate].
    apply startsWith_prefix in E as [t ->].
    change (drop 10 (js"skin-tone-" ++ t)) with t.
    destruct (digitsOf_spec t) as [post [H1 [H2 H3]]].
    destruct (Pattern.digitsOf t) as [|d ds] eqn:Ed; [discriminate|].
    intros H. injection H as <-. exists post.
    split; [now rewrite H1 at 1|]. split; [discriminate|]. split; assumption.
  - intros [post [-> [Hne [Hd Hp]]]]. unfold Pattern.skinToneAt.
    rewrite startsWith_app.
    change (drop 10 (js"skin-tone-" ++ N ++ post)) with (N ++ post).
    rewrite digitsOf_unique by assumption.
    destruct N; [contradiction | reflexivity].
Qed.

Lemma toneAt_nil (i : nat) (N : jsstring) : ~ toneAt [] i N.
Proof. intros [post [H _]]. destruct i; discriminate H. Qed.

(** The pattern finds nothing exactly when it matches at no position. *)
Lemma matchSkinTone_None (s : jsstring) :
  Pattern.matchSkinTone s = None <-> forall i N, ~ toneAt s i N.
Proof.
  induction s as [|c s IH].
  - split; [intros _ i N; apply toneAt_nil | reflexivity].
  - cbn [Pattern.matchSkinTone].
    destruct (Pattern.skinToneAt (c :: s)) as [ds|] eqn:E.
    + split; [discriminate|]. intros H. exfalso.
      apply (H 0%nat ds), skinToneAt_toneAt, E.
    + rewrite IH. split; intros H i N.
      * destruct i as [|i]; [|apply (H i N)].
        intros Ht. apply skinToneAt_toneAt in Ht. congruence.
      * apply (H (S i) N).
Qed.

(** What the pattern captures are the digits of its leftmost match. *)
Lemma matchSkinTone_leftmost (s N : jsstring) :
  Pattern.matchSkinTone s = Some N <-> leftmostTone s N.
Proof.
  induction s as [|c s IH].
  - split; [discriminate|]. intros [i [H _]]. now apply toneAt_nil in H.
  - cbn [Pattern.matchSkinTone].
    destruct (Pattern.skinToneAt (c :: s)) as [ds|] eqn:E.
    + split.
      * intros H. injection H as <-. exists 0%nat.
        split; [now apply skinToneAt_toneAt|]. intros j M Hj. lia.
      * intros [i [Hi Hleft]]. destruct i as [|i].
        -- apply skinToneAt_toneAt in Hi. congruence.
        -- exfalso. apply (Hleft 0%nat ds); [lia | now apply skinToneAt_toneAt].
    + rewrite IH. split.
      * intros [i [Hi Hleft]]. exists (S i). split; [exact Hi|].
        intros j M Hj. destruct j as [|j].
        -- intros H. apply skinToneAt_toneAt in H. congruence.
        -- apply (Hleft j M). lia.
      * intros [i [Hi Hleft]]. destruct i as [|i].
        -- apply skinToneAt_toneAt in Hi. congruence.
        -- exists i. split; [exact Hi|]. intros j M Hj. apply (Hleft (S j) M). lia.
Qed.

Lemma digitsOf_colon (t r : jsstring) :
  Pattern.digitsOf (t ++ 58%N :: r) = Pattern.digitsOf t.
Proof.
  induction t as [|c t IH]; [reflexivity|].
  cbn [app Pattern.digitsOf]. now rewrite IH.
Qed.

Lemma skinToneAt_colon (b r N : jsstring) :
  Pattern.skinToneAt b = Some N -> Pattern.skinToneAt (b ++ 58%N :: r) = Some N.
Proof.
  unfold Pattern.skinToneAt.
  destruct (JsString.startsWith b js"skin-tone-") eqn:E; [|discriminate].
  apply startsWith_prefix in E as [t ->].
  rewrite <- app_assoc, startsWith_app.
  change (drop 10 (js"skin-tone-" ++ t ++ 58%N :: r)) with (t ++ 58%N :: r).
  change (drop 10 (js"skin-tone-" ++ t)) with t.
  now rewrite digitsOf_colon.
Qed.

(** A match inside the base name comes first. *)
Lemma matchSkinTone_base (b r N : jsstring) :
  Pattern.matchSkinTone b = Some N ->
  Pattern.matchSkinTone (b ++ 58%N :: r) = Some N.
Proof.
  induction b as [|c b IH]; [discriminate|].
  cbn [Pattern.matchSkinTone].
  change ((c :: b) ++ 58%N :: r) with (c :: b ++ 58%N :: r).
  cbn [Pattern.matchSkinTone].
  change (c :: b ++ 58%N :: r) with ((c :: b) ++ 58%N :: r).
  destruct (Pattern.skinToneAt (c :: b)) as [ds|] eqn:E.
  - intros H. injection H as <-. now rewrite (skinToneAt_colon _ r ds E).
  - intros H. rewrite skinToneAt_before_colon by exact E. now apply IH.
Qed.

Lemma substring0_suffix13 (b suffix : jsstring) :
  length suffix = 13%nat ->
  JsString.substring0 (b ++ suffix) (JsString.length (b ++ suffix) - 13) = b.
Proof.
  intros H. unfold JsString.substring0, JsString.length.
  rewrite length_app, H.
  replace (Z.to_nat _) with (length b) by lia.
  now rewrite take_app_length.
Qed.

(** ** Lowercasing *)

Lemma lowerAsciiUnit_invariant (p : jsstring) :
  forallb JsString.lowerInvariant p = true -> JsString.asciiToLowerCase p = p.
Proof.
  unfold JsString.asciiToLowerCase.
  induction p as [|c p IH]; cbn [forallb map]; [reflexivity|].
  intros H. apply andb_prop in H as [Hc Hp]. rewrite IH by exact Hp.
  unfold JsString.lowerInvariant in Hc. apply andb_prop in Hc as [_ Hc].
  unfold JsString.lowerAsciiUnit.
  destruct (JsString.isUpperAscii c); [discriminate | reflexivity].
Qed.

(** [asciiToLowerCase] leaves lowercase-invariant text where it is. *)
Lemma asciiToLowerCase_keeps (q p : jsstring) :
  forallb JsString.lowerInvariant p = true ->
  occursIn p q -> occursIn p (JsString.asciiToLowerCase q).
Proof.
  intros Hp [pre [post ->]].
  exists (JsString.asciiToLowerCase pre), (JsString.asciiToLowerCase post).
  unfold JsString.asciiToLowerCase. rewrite !map_app.
  fold (JsString.asciiToLowerCase p).
  now rewrite (lowerAsciiUnit_invariant p Hp).
Qed.

(** ** [getImageData] *)

Section GetImageData.

Variable toLowerCase : jsstring -> jsstring.

(** On ASCII strings [toLowerCase] maps [A-Z] to [a-z] and nothing else. *)
Hypothesis toLowerCase_ascii : forall s,
  forallb JsString.isAscii s = true -> toLowerCase s = JsString.asciiToLowerCase s.

(** Case mapping goes code point by code point, so a run of ASCII units
    that are no capital letters stays in the lowercased string. *)
Hypothesis toLowerCase_keeps : forall q p,
  forallb JsString.lowerInvariant p = true ->
  occursIn p q -> occursIn p (toLowerCase q).

Variable emojis : list IEmoji.

Lemma getImageData_compound_branch (q : jsstring) :
  occursIn js"::skin-tone-" (toLowerCase q) ->
  getImageData toLowerCase emojis q =
    let q' := toLowerCase q in
    match emojiValMap emojis !! JsString.substring0 q' (JsString.length q' - 13) with
    | Some base =>
        Some (findImage base
                (emojiValMap emojis !! skinToneKey (Pattern.matchSkinTone q')))
    | None => None
    end.
Proof.
  intros H. apply indexOf_occursIn in H. unfold getImageData.
  replace (JsString.indexOf (toLowerCase q) js"::skin-tone-" =? -1) with false
    by (symmetry; apply Z.eqb_neq; lia).
  reflexivity.
Qed.

Lemma getImageData_plain_branch (q : jsstring) :
  ~ occursIn js"::skin-tone-" (toLowerCase q) ->
  getImageData toLowerCase emojis q =
    match emojiValMap emojis !! toLowerCase q with
    | Some e =>
        if JsString.eqb (category e) js"Skin Tones" then None
        else Some (findImage e None)
    | None => None
    end.
Proof.
  intros H. apply indexOf_absent in H. unfold getImageData. rewrite H.
  cbn [Z.eqb Pos.eqb]. destruct (emojiValMap emojis !! toLowerCase q) as [e|];
    [|reflexivity].
  destruct (JsString.eqb (category e) js"Skin Tones"); reflexivity.
Qed.


(** C5, as the code has it: when the query contains ["::skin-tone-"],
    the pattern [skin-tone-<digits>] finds nothing and the base name
    resolves, the modifier is looked up under ["skin-tone-null"]; in a
    dataset without that name the result is the descriptor of the base
    record itself, with its own coordinates and image. *)
Theorem getImageData_malformed (q : jsstring) (base : IEmoji) :
  let q' := toLowerCase q in
  occursIn js"::skin-tone-" q ->
  Pattern.matchSkinTone q' = None ->
  emojiValMap emojis !! JsString.substring0 q' (JsString.length q' - 13) = Some base ->
  getImageData toLowerCase emojis q =
    Some (findImage base (emojiValMap emojis !! js"skin-tone-null"))
  /\ ((forall e, In e emojis -> ~ In js"skin-tone-null" (short_names e)) ->
      getImageData toLowerCase emojis q =
        Some {| ei_x := (sheet_x base * multiplyX)%float;
                ei_y := (sheet_y base * multiplyY)%float;
                sheetSizeX := (100 * sheetColumns)%float;
                sheetSizeY := (100 * sheetRows)%float;
                ei_image := Some (image base) |}).
Proof.
  intros q' Hq Hm Hb.
  assert (getImageData toLowerCase emojis q =
          Some (findImage base (emojiValMap emojis !! js"skin-tone-null"))) as H.
  { rewrite getImageData_compound_branch
      by (apply toLowerCase_keeps; [reflexivity | exact Hq]).
    cbv zeta. fold q'. rewrite Hb, Hm. reflexivity. }
  split; [exact H|].
  intros Hnull. apply emojiValMap_None in Hnull. rewrite H, Hnull.
  unfold findImage. destruct (skin_variations base); reflexivity.
Qed.

(** C6, as the code has it: when the lowercased query does not contain
    ["::skin-tone-"], [getImageData] returns a descriptor exactly when
    the lowercased query resolves to a record whose category is not
    ["Skin Tones"], and then it is the descriptor of that record without
    a modifier; otherwise it returns "not found".  For [":)"], a name no
    record lists, it returns "not found". *)
Theorem getImageData_plain :
  (forall q, ~ occursIn js"::skin-tone-" (toLowerCase q) ->
     (forall d,
        getImageData toLowerCase emojis q = Some d <->
        exists e, emojiValMap emojis !! toLowerCase q = Some e
                  /\ category e <> js"Skin Tones"
                  /\ d = findImage e None)
     /\ (getImageData toLowerCase emojis q = None <->
         ~ exists e, emojiValMap emojis !! toLowerCase q = Some e
                     /\ category e <> js"Skin Tones"))
  /\ ((forall e, In e emojis -> ~ In js":)" (short_names e)) ->
      getImageData toLowerCase emojis js":)" = None).
Proof.
  split.
  - intros q Hq. rewrite getImageData_plain_branch by exact Hq.
    destruct (emojiValMap emojis !! toLowerCase q) as [e|].
    + destruct (JsString.eqb (category e) js"Skin Tones") eqn:E.
      * apply eqb_eq in E. split; [intros d|]; split; try discriminate; try reflexivity.
        -- intros [e' [He' [Hc _]]]. injection He' as <-. contradiction.
        -- intros _ [e' [He' Hc]]. injection He' as <-. contradiction.
      * assert (category e <> js"Skin Tones") as Hc.
        { intros Hc. apply eqb_eq in Hc. congruence. }
        split; [intros d|]; split.
        -- intros H. injection H as <-. exists e. auto.
        -- intros [e' [He' [_ ->]]]. injection He' as <-. reflexivity.
        -- discriminate.
        -- intros H. exfalso. apply H. exists e. auto.
    + split; [intros d|]; split; try discriminate; try reflexivity.
      * intros [e [He _]]. discriminate.
      * intros _ [e [He _]]. discriminate.
  - intros Hno. apply emojiValMap_None in Hno.
    assert (toLowerCase js":)" = js":)") as Hl
      by (rewrite toLowerCase_ascii; reflexivity).
    rewrite getImageData_plain_branch; rewrite Hl; [now rewrite Hno|].
    apply indexOf_absent. reflexivity.
Qed.

End GetImageData.

Lemma sample_lower_ascii (s : jsstring) :
  forallb JsString.isAscii s = true -> Sample.lower s = JsString.asciiToLowerCase s.
Proof. reflexivity. Qed.



(** The outputs the README and the tests show for [smile]. *)
Example getImageData_smile :
  let shown := Some {| ei_x := 53.333333333333336%float;
                       ei_y := 83.33333333333334%float;
                       sheetSizeX := 6100%float;
                       sheetSizeY := 6100%float;
                       ei_image := Some js"1f604.png" |} in
  getImageData Sample.lower Sample.emojis js"smile" = shown
  /\ getImageData Sample.lower Sample.emojis js"SMILE" = shown
  /\ getImageDataWithColon Sample.lower Sample.emojis js":smile:" = shown
  /\ getImageData Sample.lower Sample.emojis js":)::skin-tone-4" = None.
Proof. repeat split; vm_compute; reflexivity. Qed.

Example hasSkinTone_runs :
  hasSkinTone (Some js":ok_hand::skin-tone-5:") = true
  /\ hasSkinTone (Some js":ok_hand:") = false.
Proof. split; vm_compute; reflexivity. Qed.

(** The compound form is recognised after lowercasing. *)
Example getImageData_upper_case :
  getImageData Sample.lower Sample.emojis js"Spock-Hand::SKIN-TONE-4" =
  getImageData Sample.lower Sample.emojis js"spock-hand::skin-tone-4".
Proof. vm_compute. reflexivity. Qed.

Lemma getImageData_malformed_witness :
  getImageData Sample.lower Sample.emojis js"smile::skin-tone-x" =
    Some {| ei_x := 53.333333333333336%float;
            ei_y := 83.33333333333334%float;
            sheetSizeX := 6100%float;
            sheetSizeY := 6100%float;
            ei_image := Some js"1f604.png" |}.
Proof.
  destruct (getImageData_malformed Sample.lower asciiToLowerCase_keeps Sample.emojis
              js"smile::skin-tone-x" Sample.smile) as [_ H].
  - apply indexOf_occursIn. vm_compute. discriminate.
  - vm_compute. reflexivity.
  - vm_compute. reflexivity.
  - rewrite H.
    + vm_compute. reflexivity.
    + apply emojiValMap_None. vm_compute. reflexivity.
Defined.

(** C5 fails as stated: the suffix of ["smile::skin-tone-x"] is no
    [skin-tone-<digits>] and the base name [smile] resolves, yet the
    descriptor has the coordinates of [smile], not (0, 0). *)
Lemma getImageData_malformed_not_zeroed :
  let q := js"smile::skin-tone-x" in
  occursIn js"::skin-tone-" q
  /\ Pattern.matchSkinTone (Sample.lower q) = None
  /\ emojiValMap Sample.emojis
       !! JsString.substring0 (Sample.lower q) (JsString.length (Sample.lower q) - 13)
     = Some Sample.smile
  /\ exists d, getImageData Sample.lower Sample.emojis q = Some d
               /\ ei_x d <> 0%float /\ ei_y d <> 0%float
               /\ ei_image d = Some js"1f604.png".
Proof.
  cbv zeta. split; [|split; [|split]].
  - apply indexOf_occursIn. vm_compute. discriminate.
  - vm_compute. reflexivity.
  - vm_compute. reflexivity.
  - eexists. split; [vm_compute; reflexivity|].
    split; [|split]; [positive_not_zero | positive_not_zero | reflexivity].
Qed.

Lemma getImageData_plain_witness :
  getImageData Sample.lower Sample.emojis js":)" = None
  /\ getImageData Sample.lower Sample.emojis js"skin-tone-4" = None
  /\ getImageData Sample.lower Sample.emojis js"Smile" =
       Some (findImage Sample.smile None).
Proof.
  destruct (getImageData_plain Sample.lower sample_lower_ascii Sample.emojis)
    as [Hq Hsmiley].
  split; [|split].
  - apply Hsmiley. apply emojiValMap_None. vm_compute. reflexivity.
  - apply (Hq js"skin-tone-4").
    + apply indexOf_absent. vm_compute. reflexivity.
    + intros [e [He Hc]]. vm_compute in He. injection He as <-.
      apply Hc. reflexivity.
  - apply (Hq js"Smile").
    + apply indexOf_absent. vm_compute. reflexivity.
    + exists Sample.smile. split; [vm_compute; reflexivity|].
      split; [|reflexivity]. intros Hc. apply eqb_eq in Hc.
      vm_compute in Hc. discriminate.
Defined.

(** C6 fails as stated: ["SMILE::SKIN-TONE-4"] does not contain
    ["::skin-tone-"], its lowercased form resolves to no record, and yet
    [getImageData] returns a descriptor, because the compound form is
    looked for in the lowercased query. *)
Lemma getImageData_upper_case_compound :
  let q := js"SMILE::SKIN-TONE-4" in
  ~ occursIn js"::skin-tone-" q
  /\ emojiValMap Sample.emojis !! Sample.lower q = None
  /\ getImageData Sample.lower Sample.emojis q = Some (findImage Sample.smile None).
Proof.
  cbv zeta. split; [|split].
  - apply indexOf_absent. vm_compute. reflexivity.
  - vm_compute. reflexivity.
  - vm_compute. reflexivity.
Qed.

(** ** Reverse substitution *)

Lemma consumed_app (pre rest : jsstring) : JsString.consumed (pre ++ rest) rest = pre.
Proof.
  unfold JsString.consumed. rewrite length_app.
  replace (length pre + length rest - length rest)%nat with (length pre) by lia.
  apply take_app_length.
Qed.

(** A code point is one unit, or two for a surrogate pair. *)
Lemma codePointAt_split (s rest : jsstring) (c : N) :
  JsString.codePointAt s = Some (c, rest) ->
  (exists u, s = u :: rest /\ c = u)
  \/ (exists h l, s = h :: l :: rest /\ c = JsString.pairValue h l).
Proof.
  destruct s as [|h [|l r]]; cbn [JsString.codePointAt]; [discriminate| |].
  - intros H. injection H as <- <-. left. now exists h.
  - destruct (JsString.isHighSurrogate h && JsString.isLowSurrogate l);
      intros H; injection H as <- <-; [right | left]; eauto.
Qed.

Lemma codePointAt_suffix (s rest : jsstring) (c : N) :
  JsString.codePointAt s = Some (c, rest) ->
  s = JsString.consumed s rest ++ rest /\ (length rest < length s)%nat.
Proof.
  intros H. apply codePointAt_split in H as [[u [-> _]] | [h [l [-> _]]]].
  - change (u :: rest) with ([u] ++ rest). rewrite consumed_app.
    split; [reflexivity | rewrite length_app; simpl; lia].
  - change (h :: l :: rest) with ([h; l] ++ rest). rewrite consumed_app.
    split; [reflexivity | rewrite length_app; simpl; lia].
Qed.

Lemma matchLiteral_suffix (pat : list N) (s rest : jsstring) :
  Pattern.matchLiteral pat s = Some rest -> exists pre, s = pre ++ rest.
Proof.
  revert s. induction pat as [|p pat IH]; intros s; cbn [Pattern.matchLiteral].
  - intros H. injection H as <-. now exists [].
  - destruct (JsString.codePointAt s) as [[c r]|] eqn:E; [|discriminate].
    destruct (N.eqb c p); [|discriminate].
    intros H. apply IH in H as [pre ->].
    apply codePointAt_suffix in E as [E _]. rewrite E.
    exists (JsString.consumed s (pre ++ rest) ++ pre). now rewrite <- app_assoc.
Qed.

Lemma firstAlternative_suffix (alts : list (list N)) (s rest : jsstring) :
  Pattern.firstAlternative alts s = Some rest -> exists pre, s = pre ++ rest.
Proof.
  induction alts as [|a alts IH]; cbn [Pattern.firstAlternative]; [discriminate|].
  destruct (Pattern.matchLiteral a s) eqn:E; [|exact IH].
  intros H. injection H as <-. now apply matchLiteral_suffix in E.
Qed.

Lemma pairValue_above (h l : N) : (0x10000 <= JsString.pairValue h l)%N.
Proof. unfold JsString.pairValue. lia. Qed.

(** What one attempt of the pattern yields: the match is group 1
    followed by group 2, and group 2 is empty or a single unit in
    [DFFB .. DFFF]. *)
Lemma execAt_split (alts : list (list N)) (s p1 p2 rest : jsstring) :
  Pattern.execAt alts s = Some (p1, p2, rest) ->
  s = p1 ++ p2 ++ rest
  /\ (p2 = [] \/ exists u, p2 = [u] /\ (0xDFFB <= u <= 0xDFFF)%N).
Proof.
  unfold Pattern.execAt.
  destruct (Pattern.firstAlternative alts s) as [r1|] eqn:E1; [|discriminate].
  apply firstAlternative_suffix in E1 as [pre ->]. rewrite consumed_app.
  destruct (JsString.codePointAt r1) as [[c r2]|] eqn:E2.
  - destruct (Pattern.inModifierClass c) eqn:Ec.
    + intros H. injection H as <- <- <-.
      unfold Pattern.inModifierClass in Ec. apply andb_prop in Ec as [Ea Eb].
      apply N.leb_le in Ea, Eb.
      apply codePointAt_split in E2 as [[u [-> ->]] | [h [l [-> ->]]]].
      * change (u :: r2) with ([u] ++ r2). rewrite consumed_app.
        split; [reflexivity|]. right. exists u. split; [reflexivity | lia].
      * pose proof (pairValue_above h l). lia.
    + intros H. injection H as <- <- <-. split; [reflexivity | now left].
  - intros H. injection H as <- <- <-. split; [reflexivity | now left].
Qed.

(** Above the length of the text the fuel does not matter. *)
Lemma replaceLoop_fuel (alts : list (list N)) (f : jsstring -> jsstring -> jsstring)
  (n m : nat) (s : jsstring) :
  (length s < n)%nat -> (length s < m)%nat ->
  Pattern.replaceLoop alts f n s = Pattern.replaceLoop alts f m s.
Proof.
  revert m s. induction n as [|n IH]; intros m s Hn Hm; [lia|].
  destruct m as [|m]; [lia|]. cbn [Pattern.replaceLoop].
  destruct (Pattern.execAt alts s) as [[[p1 p2] rest]|] eqn:E.
  - apply execAt_split in E as [Hs _].
    destruct (p1 ++ p2) as [|u w] eqn:Ep.
    + destruct (JsString.codePointAt s) as [[c r]|] eqn:Ec; [|reflexivity].
      apply codePointAt_suffix in Ec as [_ Hr].
      rewrite (IH m r) by lia. reflexivity.
    + assert (length rest < length s)%nat as Hr.
      { rewrite Hs, app_assoc, Ep, length_app. simpl. lia. }
      rewrite (IH m rest) by lia. reflexivity.
  - destruct (JsString.codePointAt s) as [[c r]|] eqn:Ec; [|reflexivity].
    apply codePointAt_suffix in Ec as [_ Hr].
    rewrite (IH m r) by lia. reflexivity.
Qed.

Lemma replaceAll_unfold (alts : list (list N)) (f : jsstring -> jsstring -> jsstring)
  (s : jsstring) :
  Pattern.replaceAll alts f s =
  match Pattern.execAt alts s with
  | Some (p1, p2, rest) =>
      match p1 ++ p2 with
      | [] =>
          match JsString.codePointAt s with
          | Some (_, rest') =>
              f [] p1 ++ JsString.consumed s rest' ++ Pattern.replaceAll alts f rest'
          | None => f [] p1
          end
      | _ :: _ => f (p1 ++ p2) p1 ++ Pattern.replaceAll alts f rest
      end
  | None =>
      match JsString.codePointAt s with
      | Some (_, rest') => JsString.consumed s rest' ++ Pattern.replaceAll alts f rest'
      | None => []
      end
  end.
Proof.
  unfold Pattern.replaceAll. cbn [Pattern.replaceLoop].
  destruct (Pattern.execAt alts s) as [[[p1 p2] rest]|] eqn:E.
  - apply execAt_split in E as [Hs _].
    destruct (p1 ++ p2) as [|u w] eqn:Ep.
    + destruct (JsString.codePointAt s) as [[c r]|] eqn:Ec; [|reflexivity].
      apply codePointAt_suffix in Ec as [_ Hr].
      rewrite (replaceLoop_fuel alts f (length s) (S (length r)) r) by lia.
      reflexivity.
    + assert (length rest < length s)%nat as Hr.
      { rewrite Hs, app_assoc, Ep, length_app. simpl. lia. }
      rewrite (replaceLoop_fuel alts f (length s) (S (length rest)) rest) by lia.
      reflexivity.
  - destruct (JsString.codePointAt s) as [[c r]|] eqn:Ec; [|reflexivity].
    apply codePointAt_suffix in Ec as [_ Hr].
    rewrite (replaceLoop_fuel alts f (length s) (S (length r)) r) by lia.
    reflexivity.
Qed.

(** The character index holds, for a character, a record of the dataset
    with that character. *)
Lemma emojiUnifiedValMap_Some (emojis : list IEmoji) (c : jsstring) (e : IEmoji) :
  emojiUnifiedValMap emojis !! c = Some e -> In e emojis /\ char e = c.
Proof.
  unfold emojiUnifiedValMap.
  assert (forall l (m : gmap jsstring IEmoji),
            foldl (fun m e => <[ char e := e ]> m) m l !! c = Some e ->
            m !! c = Some e \/ (In e l /\ char e = c)) as H.
  { induction l as [|e' l IH]; intros m; cbn [foldl]; [now left|].
    intros H. apply IH in H as [H | [H1 H2]].
    - destruct (List.list_eq_dec N.eq_dec (char e') c) as [Hc | Hc].
      + rewrite <- Hc, lookup_insert_eq in H. injection H as <-.
        right. split; [now left | exact Hc].
      + rewrite lookup_insert_ne in H by exact Hc. now left.
    - right. split; [now right | exact H2]. }
  intros Hl. apply H in Hl as [Hl | Hl]; [|exact Hl].
  rewrite lookup_empty in Hl. discriminate.
Qed.

(** Text in which the pattern matches nowhere is returned as it is. *)
Lemma replaceAll_no_match (alts : list (list N)) (f : jsstring -> jsstring -> jsstring)
  (s : jsstring) :
  (forall n, Pattern.execAt alts (drop n s) = None) ->
  Pattern.replaceAll alts f s = s.
Proof.
  remember (length s) as k eqn:Hk. revert s Hk.
  induction k as [k IH] using lt_wf_ind. intros s Hk Hno.
  rewrite replaceAll_unfold.
  pose proof (Hno 0%nat) as H0. rewrite drop_0 in H0. rewrite H0.
  destruct (JsString.codePointAt s) as [[c r]|] eqn:Ec.
  - pose proof Ec as Ec'. apply codePointAt_suffix in Ec' as [Hs Hr].
    rewrite (IH (length r)); [symmetry; exact Hs | lia | reflexivity |].
    intros n.
    apply codePointAt_split in Ec as [[u [-> _]] | [h [l [-> _]]]].
    + apply (Hno (S n)).
    + apply (Hno (S (S n))).
  - destruct s as [|h [|l t]]; [reflexivity | discriminate|].
    cbn [JsString.codePointAt] in Ec.
    destruct (JsString.isHighSurrogate h && JsString.isLowSurrogate l); discriminate.
Qed.

(** * Further properties of the class *)

(** ** The indexes built by [initEmojiMap] *)

Lemma foldl_setShortNames_skip (l : list IEmoji) (m : gmap jsstring IEmoji) (n : jsstring) :
  (forall e, In e l -> ~ In n (short_names e)) ->
  foldl setShortNames m l !! n = m !! n.
Proof.
  revert m. induction l as [|e l IH]; intros m Hl; cbn [foldl]; [reflexivity|].
  rewrite IH by (intros e' He'; apply Hl; now right).
  rewrite setShortNames_lookup.
  destruct (in_dec _ n (short_names e)) as [Hin | Hin]; [|reflexivity].
  exfalso. apply (Hl e); [now left | exact Hin].
Qed.

Lemma foldl_setChar_skip (l : list IEmoji) (m : gmap jsstring IEmoji) (c : jsstring) :
  (forall e, In e l -> char e <> c) ->
  foldl (fun m e => <[ char e := e ]> m) m l !! c = m !! c.
Proof.
  revert m. induction l as [|e l IH]; intros m Hl; cbn [foldl]; [reflexivity|].
  rewrite IH by (intros e' He'; apply Hl; now right).
  apply lookup_insert_ne. apply Hl. now left.
Qed.

(** X1: [getEmojiByName] answers from the dataset: a record it returns
    belongs to the dataset and lists the lowercased name among its short
    names, and it returns nothing exactly when no record lists that
    name. *)
Theorem getEmojiByName_resolves (toLowerCase : jsstring -> jsstring)
  (emojis : list IEmoji) (emojiStr : jsstring) :
  (forall e, getEmojiByName toLowerCase emojis emojiStr = Some e ->
             In e emojis /\ In (toLowerCase emojiStr) (short_names e))
  /\ (getEmojiByName toLowerCase emojis emojiStr = None <->
      forall e, In e emojis -> ~ In (toLowerCase emojiStr) (short_names e)).
Proof.
  unfold getEmojiByName. split.
  - intros e. apply emojiValMap_Some.
  - apply emojiValMap_None.
Qed.

Lemma getEmojiByName_resolves_witness :
  In Sample.smile Sample.emojis
  /\ In (Sample.lower js"SMILE") (short_names Sample.smile)
  /\ getEmojiByName Sample.lower Sample.emojis js"heart" = None.
Proof.
  destruct (getEmojiByName_resolves Sample.lower Sample.emojis js"SMILE") as [H _].
  destruct (H Sample.smile) as [H1 H2]; [vm_compute; reflexivity|].
  split; [exact H1|]. split; [exact H2|].
  apply (getEmojiByName_resolves Sample.lower Sample.emojis js"heart").
  apply emojiValMap_None. vm_compute. reflexivity.
Defined.

(** X2: in both indexes the last writer wins: a short name resolves to
    the last record of the dataset that lists it, and a character to the
    last record that has it. *)
Theorem initEmojiMap_last_wins (before after : list IEmoji) (e : IEmoji) :
  (forall n, In n (short_names e) ->
     (forall e', In e' after -> ~ In n (short_names e')) ->
     emojiValMap (before ++ e :: after) !! n = Some e)
  /\ ((forall e', In e' after -> char e' <> char e) ->
      emojiUnifiedValMap (before ++ e :: after) !! char e = Some e).
Proof.
  split.
  - intros n Hn Hafter. unfold emojiValMap.
    rewrite foldl_app. cbn [foldl].
    rewrite foldl_setShortNames_skip by exact Hafter.
    rewrite setShortNames_lookup.
    destruct (in_dec _ n (short_names e)); [reflexivity | contradiction].
  - intros Hafter. unfold emojiUnifiedValMap.
    rewrite foldl_app. cbn [foldl].
    rewrite foldl_setChar_skip by exact Hafter.
    apply lookup_insert_eq.
Qed.

(** Two records that compete: [smile_again] has the short name and the
    character of [smile] and comes after it, and both indexes hold
    [smile_again]. *)
Lemma initEmojiMap_last_wins_witness :
  let data := [Sample.smile] ++ Sample.smile_again :: [Sample.sob] in
  emojiValMap data !! js"smile" = Some Sample.smile_again
  /\ emojiUnifiedValMap data !! char Sample.smile = Some Sample.smile_again
  /\ short_names Sample.smile = short_names Sample.smile_again
  /\ char Sample.smile = char Sample.smile_again
  /\ Sample.smile_again <> Sample.smile.
Proof.
  cbv zeta.
  destruct (initEmojiMap_last_wins [Sample.smile] [Sample.sob] Sample.smile_again)
    as [Hname Hchar].
  split; [|split; [|split; [reflexivity | split; [reflexivity|]]]].
  - apply Hname; [now left|].
    intros e' [<- | []]. vm_compute. intros [H' | []]. discriminate H'.
  - apply Hchar. intros e' [<- | []]. vm_compute. discriminate.
  - intros H. apply (f_equal image) in H. vm_compute in H. discriminate H.
Defined.

(** ** Case of the query *)

(** X3: on ASCII queries the look-ups do not see the case of the
    letters: two queries that differ only in the case of ASCII letters
    get the same answer from [getEmojiByName], [getImageData] and
    [getImageDataWithColon]. *)
Theorem lookups_ignore_ascii_case (toLowerCase : jsstring -> jsstring)
  (emojis : list IEmoji) (q1 q2 : jsstring) :
  (forall s, forallb JsString.isAscii s = true ->
             toLowerCase s = JsString.asciiToLowerCase s) ->
  forallb JsString.isAscii q1 = true ->
  forallb JsString.isAscii q2 = true ->
  JsString.asciiToLowerCase q1 = JsString.asciiToLowerCase q2 ->
  getEmojiByName toLowerCase emojis q1 = getEmojiByName toLowerCase emojis q2
  /\ getImageData toLowerCase emojis q1 = getImageData toLowerCase emojis q2.
Proof.
  intros Hlower H1 H2 Heq.
  assert (toLowerCase q1 = toLowerCase q2) as H
    by (rewrite !Hlower by assumption; exact Heq).
  unfold getEmojiByName, getImageData. rewrite H. split; reflexivity.
Qed.

Lemma lookups_ignore_ascii_case_witness :
  getEmojiByName Sample.lower Sample.emojis js"Spock-Hand"
    = getEmojiByName Sample.lower Sample.emojis js"SPOCK-HAND"
  /\ getImageData Sample.lower Sample.emojis js"Spock-Hand"
    = getImageData Sample.lower Sample.emojis js"SPOCK-HAND".
Proof.
  apply (lookups_ignore_ascii_case Sample.lower Sample.emojis);
    [exact sample_lower_ascii | reflexivity ..].
Defined.

(** ** Categories *)

Lemma filter_sublist {A : Type} (f : A -> bool) (l : list A) :
  sublist (List.filter f l) l.
Proof.
  induction l as [|a l IH]; cbn [List.filter]; [constructor|].
  destruct (f a); [now apply sublist_skip | now apply sublist_cons].
Qed.

Lemma categoryLookUp_lookup (categories : list jsstring) (emojis : list IEmoji)
  (m : gmap jsstring (list IEmoji)) (cat : jsstring) :
  foldl (fun m eachCategory =>
           if negb (JsString.eqb eachCategory modifierCategory)
           then <[ eachCategory :=
                     List.filter (fun eachEmoji => JsString.eqb (category eachEmoji) eachCategory)
                       emojis ]> m
           else m) m categories !! cat =
  if in_dec (List.list_eq_dec N.eq_dec) cat categories
  then if JsString.eqb cat modifierCategory then m !! cat
       else Some (List.filter (fun e => JsString.eqb (category e) cat) emojis)
  else m !! cat.
Proof.
  revert m. induction categories as [|c cs IH]; intros m; [reflexivity|].
  cbn [foldl]. rewrite IH.
  destruct (in_dec _ cat cs) as [Hin | Hin];
    destruct (in_dec _ cat (c :: cs)) as [Hin' | Hin'].
  - destruct (JsString.eqb cat modifierCategory) eqn:E; [|reflexivity].
    destruct (JsString.eqb c modifierCategory) eqn:Ec; [reflexivity|].
    apply lookup_insert_ne. intros ->. congruence.
  - exfalso. apply Hin'. now right.
  - destruct Hin' as [-> | Hin']; [|contradiction].
    destruct (JsString.eqb cat modifierCategory); cbn [negb];
      [reflexivity | apply lookup_insert_eq].
  - destruct (JsString.eqb c modifierCategory); cbn [negb]; [reflexivity|].
    apply lookup_insert_ne. intros ->. apply Hin'. now left.
Qed.

(** X4: [emojiCategoryLookUp] has an entry for each of the ten
    categories of [CategoryData] and for nothing else -- in particular
    none for ["Skin Tones"] -- and the entry of a category is the list of
    the dataset records of that category, in the order of the dataset. *)
Theorem emojiCategoryLookUp_spec (emojis : list IEmoji) (cat : jsstring) :
  (In cat CategoryData ->
   emojiCategoryLookUp emojis !! cat =
     Some (List.filter (fun e => JsString.eqb (category e) cat) emojis))
  /\ (~ In cat CategoryData -> emojiCategoryLookUp emojis !! cat = None)
  /\ emojiCategoryLookUp emojis !! js"Skin Tones" = None
  /\ (forall l, emojiCategoryLookUp emojis !! cat = Some l ->
        sublist l emojis
        /\ forall e, In e l <-> In e emojis /\ category e = cat).
Proof.
  assert (forall c, In c CategoryData -> JsString.eqb c modifierCategory = false) as Hmod.
  { intros c Hc. unfold CategoryData in Hc. cbn [In] in Hc.
    repeat (destruct Hc as [<- | Hc]; [vm_compute; reflexivity|]). destruct Hc. }
  assert (forall c, In c CategoryData ->
            emojiCategoryLookUp emojis !! c =
              Some (List.filter (fun e => JsString.eqb (category e) c) emojis)) as Hin.
  { intros c Hc. unfold emojiCategoryLookUp, categoryLookUp.
    rewrite categoryLookUp_lookup.
    destruct (in_dec _ c CategoryData); [|contradiction].
    now rewrite (Hmod c Hc). }
  assert (forall c, ~ In c CategoryData -> emojiCategoryLookUp emojis !! c = None) as Hout.
  { intros c Hc. unfold emojiCategoryLookUp, categoryLookUp.
    rewrite categoryLookUp_lookup.
    destruct (in_dec _ c CategoryData); [contradiction | apply lookup_empty]. }
  split; [apply Hin|]. split; [apply Hout|]. split.
  - apply Hout. unfold CategoryData. cbn [In].
    intros H. repeat (destruct H as [H | H]; [vm_compute in H; discriminate H|]).
    exact H.
  - intros l Hl.
    destruct (in_dec (List.list_eq_dec N.eq_dec) cat CategoryData) as [Hc | Hc].
    + rewrite (Hin cat Hc) in Hl. injection Hl as <-. split.
      * apply filter_sublist.
      * intros e. rewrite filter_In, eqb_eq. reflexivity.
    + rewrite (Hout cat Hc) in Hl. discriminate.
Qed.

Lemma emojiCategoryLookUp_spec_witness :
  emojiCategoryLookUp Sample.emojis !! js"Symbols"
    = Some [Sample.keycap_star; Sample.sa].
Proof.
  destruct (emojiCategoryLookUp_spec Sample.emojis js"Symbols") as [H _].
  rewrite H; [vm_compute; reflexivity|].
  unfold CategoryData. cbn [In]. do 8 right. now left.
Defined.

(** ** Records with variations *)

(** X5: [getVariationEmojis] is the sub-sequence of the dataset made of
    the records that have skin variations; for every other record the
    modifier given to [findImage] changes nothing. *)
Theorem getVariationEmojis_spec (emojis : list IEmoji) :
  sublist (getVariationEmojis emojis) emojis
  /\ (forall e, In e (getVariationEmojis emojis) <->
                In e emojis /\ skin_variations e <> None)
  /\ (forall e variation,
        In e emojis -> ~ In e (getVariationEmojis emojis) ->
        findImage e variation = findImage e None).
Proof.
  assert (forall e, In e (getVariationEmojis emojis) <->
                    In e emojis /\ skin_variations e <> None) as H.
  { intros e. unfold getVariationEmojis. rewrite filter_In.
    destruct (skin_variations e); split; intros [H1 H2];
      (split; [exact H1|]); congruence. }
  split; [apply filter_sublist|]. split; [exact H|].
  intros e variation He Hno. unfold findImage.
  destruct (skin_variations e) eqn:E; [|now destruct variation].
  exfalso. apply Hno, H. split; [exact He | congruence].
Qed.

Lemma getVariationEmojis_spec_witness :
  findImage Sample.smile (Some Sample.skin_tone_4) = findImage Sample.smile None
  /\ getVariationEmojis Sample.emojis
     = [Sample.wave; Sample.spock_hand; Sample.people_holding_hands].
Proof.
  split; [|vm_compute; reflexivity].
  destruct (getVariationEmojis_spec Sample.emojis) as [_ [Hin H]].
  apply H.
  - vm_compute. tauto.
  - intros Hs. apply Hin in Hs as [_ Hs]. apply Hs. reflexivity.
Defined.

(** ** Sheet sizes and coordinates *)

Lemma findImage_sizes (actual : IEmoji) (variation : option IEmoji) :
  sheetSizeX (findImage actual variation) = 6100%float
  /\ sheetSizeY (findImage actual variation) = 6100%float.
Proof.
  unfold findImage.
  destruct (skin_variations actual), variation; split; reflexivity.
Qed.

(** X6: whatever the query, a descriptor that [getImageData] or
    [getImageDataWithColon] returns carries the sheet sizes 6100 x 6100. *)
Theorem getImageData_sizes (toLowerCase : jsstring -> jsstring)
  (emojis : list IEmoji) (q : jsstring) (d : EmojiImage) :
  getImageData toLowerCase emojis q = Some d
  \/ getImageDataWithColon toLowerCase emojis q = Some d ->
  sheetSizeX d = 6100%float /\ sheetSizeY d = 6100%float.
Proof.
  assert (forall s, getImageData toLowerCase emojis s = Some d ->
                    sheetSizeX d = 6100%float /\ sheetSizeY d = 6100%float) as H.
  { intros s. unfold getImageData.
    destruct (JsString.indexOf (toLowerCase s) js"::skin-tone-" =? -1).
    - destruct (emojiValMap emojis !! toLowerCase s) as [e|]; [|discriminate].
      destruct (negb (JsString.eqb (category e) js"Skin Tones")); [|discriminate].
      intros Hd. injection Hd as <-. apply findImage_sizes.
    - cbv zeta.
      destruct (emojiValMap emojis !! _) as [e|]; [|discriminate].
      intros Hd. injection Hd as <-. apply findImage_sizes. }
  intros [Hd | Hd]; [apply (H q Hd) | apply (H _ Hd)].
Qed.

Lemma getImageData_sizes_witness :
  let d := {| ei_x := 0%float; ei_y := 0%float;
              sheetSizeX := 6100%float; sheetSizeY := 6100%float; ei_image := Some [] |} in
  getImageData Sample.lower Sample.emojis js"wave::skin-tone-6" = Some d
  /\ sheetSizeX d = 6100%float /\ sheetSizeY d = 6100%float.
Proof.
  cbv zeta.
  assert (getImageData Sample.lower Sample.emojis js"wave::skin-tone-6" =
          Some {| ei_x := 0%float; ei_y := 0%float;
                  sheetSizeX := 6100%float; sheetSizeY := 6100%float; ei_image := Some [] |})
    as Hd by (vm_compute; reflexivity).
  split; [exact Hd|].
  apply (getImageData_sizes Sample.lower Sample.emojis js"wave::skin-tone-6").
  left. exact Hd.
Defined.

(** X7: for a record on the 61 x 61 grid (positions 0 .. 60), the
    coordinates of its descriptor are percentages between 0 and 100, 0
    for position 0 and exactly 100 for position 60, and a record further
    to the right gets a strictly larger [x]. *)
Theorem findImage_percentages (a b : IEmoji) (i j i' : nat) :
  sheet_x a = gridNumber i -> sheet_y a = gridNumber j ->
  (i <= 60)%nat -> (j <= 60)%nat ->
  let d := findImage a None in
  inPercentRange (ei_x d) = true
  /\ inPercentRange (ei_y d) = true
  /\ (i = 0%nat -> ei_x d = 0%float)
  /\ (i = 60%nat -> ei_x d = 100%float)
  /\ (sheet_x b = gridNumber i' -> (i < i' <= 60)%nat ->
      PrimFloat.ltb (ei_x d) (ei_x (findImage b None)) = true).
Proof.
  intros Hx Hy Hi Hj d.
  assert (forall e, ei_x (findImage e None) = (sheet_x e * multiplyX)%float
                    /\ ei_y (findImage e None) = (sheet_y e * multiplyY)%float) as Hbase.
  { intros e. unfold findImage. destruct (skin_variations e); split; reflexivity. }
  assert (forall n, (n <= 60)%nat -> In n (seq 0 61)) as Hseq
    by (intros n Hn; apply in_seq; lia).
  assert (forallb (fun n => inPercentRange (gridNumber n * multiplyX)
                            && inPercentRange (gridNumber n * multiplyY))
            (seq 0 61) = true) as Hrange by (vm_compute; reflexivity).
  assert (forallb (fun n => forallb (fun n' =>
                     if (n <? n')%nat
                     then PrimFloat.ltb (gridNumber n * multiplyX) (gridNumber n' * multiplyX)
                     else true) (seq 0 61)) (seq 0 61) = true) as Horder
    by (vm_compute; reflexivity).
  rewrite forallb_forall in Hrange, Horder.
  destruct (Hbase a) as [Hxa Hya]. unfold d. rewrite Hxa, Hya, Hx, Hy.
  pose proof (Hrange j (Hseq j Hj)) as Hrj. apply andb_prop in Hrj as [_ Hrj].
  pose proof (Hrange i (Hseq i Hi)) as Hri. apply andb_prop in Hri as [Hri _].
  split; [exact Hri|]. split; [exact Hrj|].
  split; [intros ->; vm_compute; reflexivity|].
  split; [intros ->; vm_compute; reflexivity|].
  intros Hxb [Hlt Hle]. destruct (Hbase b) as [-> _]. rewrite Hxb.
  pose proof (Horder i (Hseq i Hi)) as Ho. rewrite forallb_forall in Ho.
  specialize (Ho i' (Hseq i' Hle)).
  replace (i <? i')%nat with true in Ho by (symmetry; apply Nat.ltb_lt; exact Hlt).
  exact Ho.
Qed.

Lemma findImage_percentages_witness :
  inPercentRange (ei_x (findImage Sample.smile None)) = true
  /\ inPercentRange (ei_y (findImage Sample.smile None)) = true
  /\ PrimFloat.ltb (ei_x (findImage Sample.wave None))
       (ei_x (findImage Sample.smile None)) = true.
Proof.
  destruct (findImage_percentages Sample.smile Sample.smile 32 50 32)
    as [H1 [H2 _]]; [vm_compute; reflexivity .. | lia | lia |].
  destruct (findImage_percentages Sample.wave Sample.smile 13 26 32)
    as [_ [_ [_ [_ H3]]]]; [vm_compute; reflexivity .. | lia | lia |].
  split; [exact H1|]. split; [exact H2|].
  apply H3; [vm_compute; reflexivity | lia].
Defined.

(** ** More on [searchEmoji] *)

Lemma insertBy_filter {A : Type} (cmp : A -> A -> Z) (P : A -> bool) (a : A) (l : list A) :
  (forall x, P a = true -> P x = true -> cmp a x <= 0) ->
  List.filter P (JsArray.insertBy cmp a l) =
  if P a then a :: List.filter P l else List.filter P l.
Proof.
  intros Hclass. induction l as [|b l IH]; cbn [JsArray.insertBy List.filter].
  - reflexivity.
  - destruct (Z.leb_spec (cmp a b) 0) as [Hle | Hgt]; cbn [List.filter].
    + reflexivity.
    + rewrite IH. destruct (P a) eqn:Ea; [|reflexivity].
      destruct (P b) eqn:Eb; [|reflexivity].
      specialize (Hclass b eq_refl Eb). lia.
Qed.

(** A stable sort does not reorder the elements of a class on which the
    comparator is constant. *)
Lemma sort_filter {A : Type} (cmp : A -> A -> Z) (P : A -> bool) (l : list A) :
  (forall x y, P x = true -> P y = true -> cmp x y <= 0) ->
  List.filter P (JsArray.sort cmp l) = List.filter P l.
Proof.
  intros Hclass. induction l as [|a l IH]; [reflexivity|].
  unfold JsArray.sort in *. cbn [foldr List.filter].
  rewrite insertBy_filter by (intros x; apply Hclass).
  now rewrite IH.
Qed.

Lemma filter_map_comm {A B : Type} (f : A -> B) (P : B -> bool) (l : list A) :
  List.filter P (map f l) = map f (List.filter (fun a => P (f a)) l).
Proof.
  induction l as [|a l IH]; cbn [map List.filter]; [reflexivity|].
  destruct (P (f a)); cbn [map]; now rewrite IH.
Qed.

(** X8: records that tie on both keys of the search -- same position of
    the match, same length of the short name -- come out in the order of
    the dataset. *)
Theorem searchEmoji_ties (emojis : list IEmoji) (q : jsstring) (i n : Z) :
  List.filter (tied q i n) (ranked emojis q) =
  List.filter (tied q i n) (List.filter (matches q) emojis).
Proof.
  rewrite <- hits_emoji. unfold ranked. rewrite !filter_map_comm. f_equal.
  set (P := fun h : Hit =>
              (index h =? i) && (JsString.length (short_name (emoji h)) =? n)).
  assert (forall l, Forall (fun h => index h = JsString.indexOf (short_name (emoji h)) q) l ->
            List.filter (fun h => tied q i n (emoji h)) l = List.filter P l) as Hext.
  { intros l Hl. apply filter_ext_in. intros h Hh.
    rewrite List.Forall_forall in Hl. unfold tied, P. now rewrite (Hl h Hh). }
  rewrite Hext.
  - rewrite !sort_filter.
    + symmetry. apply Hext, hits_index.
    + intros x y Hx Hy. unfold P in Hx, Hy.
      apply andb_prop in Hx as [_ Hx]. apply andb_prop in Hy as [_ Hy]. lia.
    + intros x y Hx Hy. unfold P in Hx, Hy.
      apply andb_prop in Hx as [Hx _]. apply andb_prop in Hy as [Hy _]. lia.
  - eapply Permutation_Forall; [| apply hits_index].
    symmetry. now rewrite !sort_perm.
Qed.

(** X9: with limits that are not negative, a smaller limit gives a
    prefix of what a larger one gives; the number of results is the
    limit or the number of matching records, whichever is smaller, and a
    limit of at least that number returns every match. *)
Theorem searchEmoji_limits (emojis : list IEmoji) (q : jsstring) (l1 l2 : Z) :
  0 <= l1 <= l2 ->
  searchEmoji emojis q l1 = take (Z.to_nat l1) (searchEmoji emojis q l2)
  /\ length (searchEmoji emojis q l1)
     = Nat.min (Z.to_nat l1) (length (List.filter (matches q) emojis))
  /\ (Z.of_nat (length (List.filter (matches q) emojis)) <= l1 ->
      searchEmoji emojis q l1 = ranked emojis q).
Proof.
  intros [H1 H2]. unfold searchEmoji. rewrite !slice0_nonneg by lia.
  assert (length (ranked emojis q) = length (List.filter (matches q) emojis)) as Hlen
    by apply Permutation_length, ranked_perm.
  split; [|split].
  - rewrite take_take. f_equal. lia.
  - rewrite length_take, Hlen. reflexivity.
  - intros H. apply firstn_all2. lia.
Qed.

Lemma searchEmoji_limits_witness :
  searchEmoji Sample.emojis js"s" 2 = take 2 (searchEmoji Sample.emojis js"s" 5)
  /\ length (searchEmoji Sample.emojis js"s" 2) = 2%nat
  /\ length (searchEmoji Sample.emojis js"s" 100) = 7%nat.
Proof.
  destruct (searchEmoji_limits Sample.emojis js"s" 2 5 ltac:(lia)) as [H1 [H2 _]].
  destruct (searchEmoji_limits Sample.emojis js"s" 100 100 ltac:(lia)) as [_ [H3 _]].
  split; [exact H1|]. split; [rewrite H2 | rewrite H3]; vm_compute; reflexivity.
Defined.

Lemma indexOf_empty (s : jsstring) : JsString.indexOf s [] = 0.
Proof. unfold JsString.indexOf. destruct s; reflexivity. Qed.

(** X10: the empty query matches every record whose short name does not
    contain ["skin-tone-"]; the result lists them by the length of the
    short name, shortest first. *)
Theorem searchEmoji_empty_query (emojis : list IEmoji) :
  Permutation (ranked emojis [])
    (List.filter (fun e => negb (hasSkinTone (Some (short_name e)))) emojis)
  /\ StronglySorted
       (fun a b => JsString.length (short_name a) <= JsString.length (short_name b))
       (ranked emojis []).
Proof.
  split.
  - rewrite ranked_perm. erewrite filter_ext; [reflexivity|].
    intros e. unfold matches. now rewrite indexOf_empty, hasSkinTone_Some.
  - eapply StronglySorted_weaken with (P := fun _ => True);
      [| apply List.Forall_forall; trivial | apply ranked_sorted].
    intros a b _ _ H. unfold byPositionThenLength in H.
    rewrite !indexOf_empty in H. lia.
Qed.

(** ** The alternatives of the generated pattern *)

Lemma sort_ext {A : Type} (cmp cmp' : A -> A -> Z) (l : list A) :
  (forall x y, (cmp x y <=? 0) = (cmp' x y <=? 0)) ->
  JsArray.sort cmp l = JsArray.sort cmp' l.
Proof.
  intros H. unfold JsArray.sort. induction l as [|a l IH]; [reflexivity|].
  cbn [foldr]. rewrite IH. generalize (foldr (JsArray.insertBy cmp') [] l).
  intros s. induction s as [|b s IHs]; [reflexivity|].
  cbn [JsArray.insertBy]. rewrite H, IHs. reflexivity.
Qed.

Lemma emojiChars_sorted (emojis : list IEmoji) :
  StronglySorted (fun a b => JsString.length b <= JsString.length a) (emojiChars emojis).
Proof.
  unfold emojiChars.
  rewrite (sort_ext _ (fun u v => - JsString.length u - - JsString.length v))
    by (intros x y; f_equal; lia).
  eapply StronglySorted_weaken with (P := fun _ => True);
    [| apply List.Forall_forall; trivial
     | apply (sort_sorted (fun a => - JsString.length a) (fun _ _ => True)), any_order].
  intros a b _ _ H. unfold thenBy in H. lia.
Qed.

(** X11: [initUnified] keeps every character of the dataset, escaped,
    and puts the longer ones first; characters of the same escaped
    length stay in the order of the dataset. *)
Theorem emojiChars_order (emojis : list IEmoji) :
  Permutation (emojiChars emojis) (map (fun e => Pattern.escapeStar (char e)) emojis)
  /\ StronglySorted (fun a b => JsString.length b <= JsString.length a) (emojiChars emojis)
  /\ (forall n,
        List.filter (fun a => JsString.length a =? n) (emojiChars emojis) =
        List.filter (fun a => JsString.length a =? n)
          (map (fun e => Pattern.escapeStar (char e)) emojis)).
Proof.
  split; [apply sort_perm|]. split; [apply emojiChars_sorted|].
  intros n. apply sort_filter. intros x y Hx Hy. lia.
Qed.

(** ** An emoji of the dataset, replaced *)

(** Induction along the reading of code points: one unit or two. *)
Lemma code_units_ind (P : jsstring -> Prop) :
  P [] ->
  (forall h, P [h]) ->
  (forall h l r, P r -> P (l :: r) -> P (h :: l :: r)) ->
  forall s, P s.
Proof.
  intros H0 H1 H2.
  assert (forall s, P s /\ forall h, P (h :: s)) as H.
  { induction s as [|l r [IHr IHl]]; [split; [exact H0 | exact H1]|].
    split; [apply IHl|]. intros h. apply H2; [exact IHr | apply IHl]. }
  intros s. apply H.
Qed.

Lemma literalOf_cons (c : N) (l : list N) :
  c <> 92%N -> Pattern.literalOf (c :: l) = c :: Pattern.literalOf l.
Proof.
  intros Hc. destruct l as [|d l]; [reflexivity|].
  cbn [Pattern.literalOf].
  replace (N.eqb c 92) with false by (symmetry; now apply N.eqb_neq).
  reflexivity.
Qed.

Lemma literalOf_plain (l : list N) :
  forallb (fun c => negb (N.eqb c 92)) l = true -> Pattern.literalOf l = l.
Proof.
  induction l as [|c l IH]; [reflexivity|]. cbn [forallb]. intros H.
  apply andb_prop in H as [Hc Hl]. apply negb_true_iff, N.eqb_neq in Hc.
  rewrite literalOf_cons by exact Hc. now rewrite IH.
Qed.

Lemma pairValue_not_backslash (h l : N) : N.eqb (JsString.pairValue h l) 92 = false.
Proof. apply N.eqb_neq. pose proof (pairValue_above h l). lia. Qed.

Lemma toCodePoints_plain (c : jsstring) :
  forallb (fun u => negb (N.eqb u 92)) c = true ->
  forallb (fun u => negb (N.eqb u 92)) (JsString.toCodePoints c) = true.
Proof.
  induction c as [| h | h l r IHr IHl] using code_units_ind; intros H.
  - reflexivity.
  - exact H.
  - cbn [JsString.toCodePoints].
    cbn [forallb] in H. apply andb_prop in H as [Hh H].
    destruct (JsString.isHighSurrogate h && JsString.isLowSurrogate l); cbn [forallb].
    + rewrite pairValue_not_backslash. cbn [negb andb]. apply IHr.
      cbn [forallb] in H. now apply andb_prop in H as [_ H].
    + rewrite Hh. cbn [andb]. now apply IHl.
Qed.

Lemma toCodePoints_cons_plain (h : N) (r : jsstring) :
  JsString.isHighSurrogate h = false ->
  JsString.toCodePoints (h :: r) = h :: JsString.toCodePoints r.
Proof.
  intros Hh. destruct r as [|l r]; [reflexivity|].
  cbn [JsString.toCodePoints]. rewrite Hh. reflexivity.
Qed.

Lemma toCodePoints_cons_not_low (h l : N) (r : jsstring) :
  JsString.isLowSurrogate l = false ->
  JsString.toCodePoints (h :: l :: r) = h :: JsString.toCodePoints (l :: r).
Proof.
  intros Hl. cbn [JsString.toCodePoints]. rewrite Hl, andb_false_r. reflexivity.
Qed.

Lemma surrogate_not_star (u : N) :
  JsString.isLowSurrogate u = true -> N.eqb u 42 = false.
Proof.
  unfold JsString.isLowSurrogate. intros H. apply andb_prop in H as [H _].
  apply N.leb_le in H. apply N.eqb_neq. lia.
Qed.

(** Escaping the star and reading the alternative back gives the
    character itself. *)
Lemma literalOf_escapeStar (c : jsstring) :
  forallb (fun u => negb (N.eqb u 92)) c = true ->
  Pattern.literalOf (JsString.toCodePoints (Pattern.escapeStar c)) = JsString.toCodePoints c.
Proof.
  induction c as [| h | h l r IHr IHl] using code_units_ind; intros H.
  - reflexivity.
  - cbn [Pattern.escapeStar]. destruct (N.eqb h 42) eqn:E; [|reflexivity].
    apply N.eqb_eq in E. subst h. reflexivity.
  - pose proof H as H'. cbn [forallb] in H'. apply andb_prop in H' as [Hh Hlr].
    apply negb_true_iff, N.eqb_neq in Hh.
    change (Pattern.escapeStar (h :: l :: r))
      with (if N.eqb h 42 then 92%N :: 42%N :: l :: r
            else h :: Pattern.escapeStar (l :: r)).
    destruct (N.eqb h 42) eqn:E.
    + apply N.eqb_eq in E. subst h.
      rewrite (toCodePoints_cons_plain 92) by reflexivity.
      rewrite !(toCodePoints_cons_plain 42 (l :: r)) by reflexivity.
      change (Pattern.literalOf (92%N :: 42%N :: JsString.toCodePoints (l :: r)))
        with (42%N :: Pattern.literalOf (JsString.toCodePoints (l :: r))).
      f_equal. apply literalOf_plain, toCodePoints_plain, Hlr.
    + destruct (JsString.isHighSurrogate h && JsString.isLowSurrogate l) eqn:Ep.
      * apply andb_prop in Ep as [Eh El].
        cbn [Pattern.escapeStar]. rewrite (surrogate_not_star l El).
        cbn [JsString.toCodePoints]. rewrite Eh, El. cbn [andb].
        rewrite literalOf_cons
          by (pose proof (pairValue_above h l); lia).
        f_equal. apply IHr.
        cbn [forallb] in Hlr. now apply andb_prop in Hlr as [_ Hlr].
      * assert (JsString.toCodePoints (h :: Pattern.escapeStar (l :: r))
                = h :: JsString.toCodePoints (Pattern.escapeStar (l :: r))) as Hs.
        { cbn [Pattern.escapeStar]. destruct (N.eqb l 42) eqn:El.
          - apply toCodePoints_cons_not_low. reflexivity.
          - cbn [JsString.toCodePoints]. rewrite Ep. reflexivity. }
        rewrite Hs. cbn [JsString.toCodePoints]. rewrite Ep.
        rewrite literalOf_cons by exact Hh. f_equal. apply IHl, Hlr.
Qed.

(** A character matches its own code points. *)
Lemma matchLiteral_self (c : jsstring) :
  Pattern.matchLiteral (JsString.toCodePoints c) c = Some [].
Proof.
  induction c as [| h | h l r IHr IHl] using code_units_ind.
  - reflexivity.
  - cbn [JsString.toCodePoints Pattern.matchLiteral JsString.codePointAt].
    now rewrite N.eqb_refl.
  - cbn [JsString.toCodePoints].
    destruct (JsString.isHighSurrogate h && JsString.isLowSurrogate l) eqn:Ep;
      cbn [Pattern.matchLiteral JsString.codePointAt]; rewrite Ep, N.eqb_refl;
      assumption.
Qed.

Lemma codePointAt_cases (s rest : jsstring) (c : N) :
  JsString.codePointAt s = Some (c, rest) ->
  (exists u, s = u :: rest /\ c = u)
  \/ (exists h l, s = h :: l :: rest /\ c = JsString.pairValue h l
                  /\ JsString.isHighSurrogate h = true
                  /\ JsString.isLowSurrogate l = true).
Proof.
  destruct s as [|h [|l r]]; cbn [JsString.codePointAt]; [discriminate| |].
  - intros H. injection H as <- <-. left. now exists h.
  - destruct (JsString.isHighSurrogate h && JsString.isLowSurrogate l) eqn:E;
      intros H; injection H as <- <-; [right | left]; [|eauto].
    apply andb_prop in E as [Eh El]. exists h, l. auto.
Qed.

Lemma pairValue_inj (h l h' l' : N) :
  JsString.isHighSurrogate h = true -> JsString.isLowSurrogate l = true ->
  JsString.isHighSurrogate h' = true -> JsString.isLowSurrogate l' = true ->
  JsString.pairValue h l = JsString.pairValue h' l' -> h = h' /\ l = l'.
Proof.
  unfold JsString.isHighSurrogate, JsString.isLowSurrogate, JsString.pairValue.
  intros Hh Hl Hh' Hl' H.
  apply andb_prop in Hh as [Hh1 Hh2]. apply andb_prop in Hl as [Hl1 Hl2].
  apply andb_prop in Hh' as [Hh1' Hh2']. apply andb_prop in Hl' as [Hl1' Hl2'].
  apply N.leb_le in Hh1, Hh2, Hl1, Hl2, Hh1', Hh2', Hl1', Hl2'. lia.
Qed.

(** What a character matches starts with the character: the units are
    16-bit numbers, so a code point tells its units. *)
Lemma matchLiteral_sound (c : jsstring) :
  forallb (fun u => N.ltb u 0x10000) c = true ->
  forall s r,
    forallb (fun u => N.ltb u 0x10000) s = true ->
    Pattern.matchLiteral (JsString.toCodePoints c) s = Some r ->
    s = c ++ r.
Proof.
  induction c as [| h | h l c IHr IHl] using code_units_ind; intros Hc s r Hs.
  - cbn [JsString.toCodePoints Pattern.matchLiteral]. intros H. now injection H as <-.
  - cbn [JsString.toCodePoints Pattern.matchLiteral].
    destruct (JsString.codePointAt s) as [[p rest]|] eqn:E; [|discriminate].
    destruct (N.eqb p h) eqn:Ep; [|discriminate].
    apply N.eqb_eq in Ep. subst p. intros H. injection H as <-.
    apply codePointAt_cases in E as [[u [-> ->]] | [h' [l' [_ [-> _]]]]]; [reflexivity|].
    cbn [forallb] in Hc. apply andb_prop in Hc as [Hc _]. apply N.ltb_lt in Hc.
    pose proof (pairValue_above h' l'). lia.
  - pose proof Hc as Hc'. cbn [forallb] in Hc'.
    apply andb_prop in Hc' as [Hh Hlc]. apply N.ltb_lt in Hh.
    cbn [JsString.toCodePoints].
    destruct (JsString.isHighSurrogate h && JsString.isLowSurrogate l) eqn:Ehl;
      cbn [Pattern.matchLiteral];
      (destruct (JsString.codePointAt s) as [[p rest]|] eqn:E; [|discriminate]);
      (destruct (N.eqb p _) eqn:Ep; [|discriminate]);
      apply N.eqb_eq in Ep; subst p; intros H;
      apply codePointAt_cases in E
        as [[u [-> Hu]] | [h' [l' [-> [Hp [Hh' Hl']]]]]].
    + cbn [forallb] in Hs. apply andb_prop in Hs as [Hu' _]. apply N.ltb_lt in Hu'.
      pose proof (pairValue_above h l). lia.
    + apply andb_prop in Ehl as [Eh El].
      destruct (pairValue_inj h l h' l' Eh El Hh' Hl' Hp) as [<- <-].
      cbn [forallb] in Hs, Hlc.
      apply andb_prop in Hs as [_ Hs]. apply andb_prop in Hs as [_ Hs].
      apply andb_prop in Hlc as [_ Hlc].
      rewrite (IHr Hlc rest r Hs H). reflexivity.
    + subst u. cbn [forallb] in Hs. apply andb_prop in Hs as [_ Hs].
      rewrite (IHl Hlc rest r Hs H). reflexivity.
    + pose proof (pairValue_above h' l'). lia.
Qed.

Lemma escapeStar_length (c : jsstring) :
  length (Pattern.escapeStar c) =
  (length c + if existsb (N.eqb 42) c then 1 else 0)%nat.
Proof.
  induction c as [|u c IH]; [reflexivity|].
  cbn [Pattern.escapeStar existsb]. rewrite (N.eqb_sym 42 u).
  destruct (N.eqb u 42); cbn [orb length]; [lia|].
  rewrite IH. lia.
Qed.

Lemma toCodePoints_nil (c : jsstring) : JsString.toCodePoints c = [] -> c = [].
Proof.
  destruct c as [|h [|l r]]; [reflexivity | discriminate|].
  cbn [JsString.toCodePoints].
  destruct (JsString.isHighSurrogate h && JsString.isLowSurrogate l); discriminate.
Qed.

Lemma patternSafe_parts (c : jsstring) :
  patternSafe c = true ->
  c <> []
  /\ forallb (fun u => N.ltb u 0x10000) c = true
  /\ forallb (fun u => negb (N.eqb u 92)) c = true.
Proof.
  unfold patternSafe. destruct c as [|u c]; [discriminate|]. intros H.
  apply andb_prop in H as [H16 Hlit].
  split; [discriminate|]. split; [exact H16|].
  unfold Pattern.literalSource in Hlit. apply andb_prop in Hlit as [Hlit _].
  rewrite forallb_forall in *. intros x Hx. specialize (Hlit x Hx).
  destruct (N.eqb x 92) eqn:E; [|reflexivity].
  apply N.eqb_eq in E. subst x. discriminate Hlit.
Qed.

Lemma patternSafe_literalSource (c : jsstring) :
  patternSafe c = true -> Pattern.literalSource c = true.
Proof.
  unfold patternSafe. destruct c as [|u c]; [discriminate|]. intros H.
  now apply andb_prop in H as [_ H].
Qed.

(** The alternative of a safe character matches at the head of a text
    exactly when the text starts with the character. *)
Lemma matchLiteral_alternative (c s r : jsstring) :
  patternSafe c = true ->
  forallb (fun u => N.ltb u 0x10000) s = true ->
  Pattern.matchLiteral
    (Pattern.literalOf (JsString.toCodePoints (Pattern.escapeStar c))) s = Some r ->
  s = c ++ r.
Proof.
  intros Hc Hs. apply patternSafe_parts in Hc as [_ [Hb Hp]].
  rewrite literalOf_escapeStar by exact Hp. now apply matchLiteral_sound.
Qed.

(** In the list of alternatives, longest first, the one of the
    character [c] is the first to match the text [c], and it matches all
    of it. *)
Lemma firstAlternative_own (srcs : list jsstring) (c : jsstring) :
  patternSafe c = true ->
  In (Pattern.escapeStar c) srcs ->
  StronglySorted (fun a b => JsString.length b <= JsString.length a) srcs ->
  (forall a, In a srcs -> exists c', a = Pattern.escapeStar c' /\ patternSafe c' = true) ->
  Pattern.firstAlternative
    (map (fun src => Pattern.literalOf (JsString.toCodePoints src)) srcs) c = Some [].
Proof.
  intros Hc. pose proof (patternSafe_parts c Hc) as [_ [Hb Hp]].
  induction srcs as [|a srcs IH]; intros Hin Hsorted Hall; [destruct Hin|].
  apply StronglySorted_inv in Hsorted as [Hsorted Hhead].
  cbn [map Pattern.firstAlternative].
  destruct (Pattern.matchLiteral (Pattern.literalOf (JsString.toCodePoints a)) c)
    as [r|] eqn:E.
  - destruct (Hall a (or_introl eq_refl)) as [c' [-> Hc']].
    apply matchLiteral_alternative in E; [|exact Hc' | exact Hb].
    assert (JsString.length (Pattern.escapeStar c)
            <= JsString.length (Pattern.escapeStar c')) as Hlen.
    { destruct Hin as [-> | Hin]; [lia|].
      rewrite List.Forall_forall in Hhead. now apply Hhead. }
    unfold JsString.length in Hlen. rewrite !escapeStar_length in Hlen.
    rewrite E in Hlen at 1 2. rewrite existsb_app, length_app in Hlen.
    destruct r as [|u r]; [reflexivity|]. exfalso.
    destruct (existsb (N.eqb 42) c'); cbn [orb length] in Hlen;
      [|destruct (existsb (N.eqb 42) (u :: r))]; lia.
  - destruct Hin as [Ha | Hin].
    + subst a. rewrite literalOf_escapeStar, matchLiteral_self in E by exact Hp.
      discriminate.
    + apply IH; [exact Hin | exact Hsorted |].
      intros a' Ha'. apply Hall. now right.
Qed.

Lemma firstAlternative_nil (alts : list (list N)) :
  Forall (fun a => a <> []) alts -> Pattern.firstAlternative alts [] = None.
Proof.
  induction 1 as [|a alts Ha _ IH]; [reflexivity|].
  cbn [Pattern.firstAlternative]. destruct a as [|p a]; [contradiction|].
  exact IH.
Qed.

Lemma foldl_setChar_In (l : list IEmoji) (m : gmap jsstring IEmoji) (c : jsstring) :
  In c (map char l) -> is_Some (foldl (fun m e => <[ char e := e ]> m) m l !! c).
Proof.
  revert m. induction l as [|e' l IH]; intros m; [intros []|].
  cbn [foldl map]. intros Hin.
  destruct (in_dec (List.list_eq_dec N.eq_dec) c (map char l)) as [Hc | Hc];
    [now apply IH|].
  destruct Hin as [<- | Hin]; [|contradiction].
  rewrite foldl_setChar_skip.
  - rewrite lookup_insert_eq. eauto.
  - intros e2 Hin2 He2. apply Hc. apply in_map_iff. eauto.
Qed.

(** With literal sources the pattern is an alternation of literals. *)
Lemma emojiUnicodeRegex_known (emojis : list IEmoji) :
  (forall e, In e emojis -> Pattern.literalSource (char e) = true) ->
  emojiUnicodeRegex emojis = Known (alternatives emojis).
Proof.
  intros H. unfold emojiUnicodeRegex.
  replace (forallb (fun e => Pattern.literalSource (char e)) emojis) with true;
    [reflexivity|].
  symmetry. apply forallb_forall. exact H.
Qed.

Lemma replaceEmojiToStr_known (emojis : list IEmoji) (text : jsstring) :
  (forall e, In e emojis -> patternSafe (char e) = true) ->
  replaceEmojiToStr emojis text =
  Known (Pattern.replaceAll (alternatives emojis) (convertUniToStr emojis) text).
Proof.
  intros H. unfold replaceEmojiToStr. rewrite emojiUnicodeRegex_known; [reflexivity|].
  intros e He. apply patternSafe_literalSource, H, He.
Qed.

(** The escaped characters of the dataset, each with its record. *)
Lemma emojiChars_In (emojis : list IEmoji) (a : jsstring) :
  In a (emojiChars emojis) <-> exists e, In e emojis /\ a = Pattern.escapeStar (char e).
Proof.
  unfold emojiChars. split.
  - intros Ha. apply (Permutation_in _ (sort_perm _ _)) in Ha.
    apply in_map_iff in Ha as [e [<- He]]. eauto.
  - intros [e [He ->]]. apply (Permutation_in _ (Permutation_sym (sort_perm _ _))).
    apply in_map_iff. eauto.
Qed.

Lemma alternatives_nonempty (emojis : list IEmoji) :
  emojis <> [] ->
  alternatives emojis =
  map (fun src => Pattern.literalOf (JsString.toCodePoints src)) (emojiChars emojis).
Proof.
  intros Hne. unfold alternatives.
  destruct (emojiChars emojis) as [|a l] eqn:E; [|reflexivity].
  destruct emojis as [|e emojis]; [contradiction|]. exfalso.
  assert (In (Pattern.escapeStar (char e)) (emojiChars (e :: emojis))) as H
    by (apply emojiChars_In; exists e; split; [now left | reflexivity]).
  rewrite E in H. destruct H.
Qed.

(** The text made of one character of the dataset: the pattern matches
    it whole and the character index names the record. *)
Lemma replaceEmojiToStr_char (emojis : list IEmoji) (e : IEmoji) :
  (forall e', In e' emojis -> patternSafe (char e') = true) ->
  In e emojis ->
  exists e',
    emojiUnifiedValMap emojis !! char e = Some e'
    /\ In e' emojis /\ char e' = char e
    /\ replaceEmojiToStr emojis (char e) = Known (js":" ++ short_name e' ++ js":").
Proof.
  intros Hsafe He.
  destruct (foldl_setChar_In emojis ∅ (char e) (in_map char _ _ He)) as [e' He'].
  fold (emojiUnifiedValMap emojis) in He'.
  exists e'. split; [exact He'|].
  destruct (emojiUnifiedValMap_Some emojis _ _ He') as [Hin' Hchar].
  split; [exact Hin'|]. split; [exact Hchar|].
  pose proof (patternSafe_parts _ (Hsafe e He)) as [Hne _].
  assert (forall a, In a (emojiChars emojis) ->
            exists c', a = Pattern.escapeStar c' /\ patternSafe c' = true) as Hall.
  { intros a Ha. unfold emojiChars in Ha.
    apply (Permutation_in _ (sort_perm _ _)) in Ha.
    apply in_map_iff in Ha as [e2 [<- He2]]. eauto. }
  assert (In (Pattern.escapeStar (char e)) (emojiChars emojis)) as Hown.
  { unfold emojiChars. apply (Permutation_in _ (Permutation_sym (sort_perm _ _))).
    apply in_map_iff. eauto. }
  assert (alternatives emojis =
          map (fun src => Pattern.literalOf (JsString.toCodePoints src))
            (emojiChars emojis)) as Hregex.
  { unfold alternatives. destruct (emojiChars emojis); [destruct Hown | reflexivity]. }
  assert (Pattern.execAt (alternatives emojis) (char e) = Some (char e, [], [])) as Hexec.
  { unfold Pattern.execAt. rewrite Hregex.
    rewrite firstAlternative_own;
      [| apply Hsafe, He | exact Hown | apply emojiChars_sorted | exact Hall].
    cbn [JsString.codePointAt].
    replace (JsString.consumed (char e) []) with (char e)
      by (symmetry; rewrite <- (app_nil_r (char e)) at 1; apply consumed_app).
    reflexivity. }
  assert (Pattern.execAt (alternatives emojis) [] = None) as Hend.
  { unfold Pattern.execAt. rewrite Hregex, firstAlternative_nil; [reflexivity|].
    apply List.Forall_forall. intros a Ha.
    apply in_map_iff in Ha as [src [<- Hsrc]].
    destruct (Hall src Hsrc) as [c' [-> Hc']].
    apply patternSafe_parts in Hc' as [Hne' [_ Hp']].
    rewrite literalOf_escapeStar by exact Hp'.
    intros Hnil. apply toCodePoints_nil in Hnil. contradiction. }
  rewrite replaceEmojiToStr_known by exact Hsafe. f_equal.
  rewrite replaceAll_unfold, Hexec, app_nil_r.
  destruct (char e) as [|u w] eqn:Ec; [contradiction|].
  rewrite replaceAll_unfold, Hend. cbn [JsString.codePointAt].
  unfold convertUniToStr. rewrite He'. apply app_nil_r.
Qed.

Lemma NoDup_map_In {A B : Type} (f : A -> B) (l : list A) (a b : A) :
  List.NoDup (map f l) -> In a l -> In b l -> f a = f b -> a = b.
Proof.
  induction l as [|x l IH]; [intros _ []|].
  cbn [map]. intros Hnd Ha Hb Hf. apply List.NoDup_cons_iff in Hnd as [Hx Hnd].
  destruct Ha as [-> | Ha], Hb as [-> | Hb]; [reflexivity | | | now apply IH].
  - exfalso. apply Hx. rewrite Hf. now apply in_map.
  - exfalso. apply Hx. rewrite <- Hf. now apply in_map.
Qed.

(** ** The scan of [replaceEmojiToStr] *)

Lemma low_not_high (l : N) :
  JsString.isLowSurrogate l = true -> JsString.isHighSurrogate l = false.
Proof.
  unfold JsString.isLowSurrogate, JsString.isHighSurrogate. intros H.
  apply andb_prop in H as [H _]. apply N.leb_le in H.
  apply andb_false_iff. right. apply N.leb_gt. lia.
Qed.

Lemma pairValue_not_unit (h l u : N) :
  (u <? 0x10000)%N = true -> N.eqb (JsString.pairValue h l) u = false.
Proof.
  intros Hu. apply N.ltb_lt in Hu. apply N.eqb_neq.
  pose proof (pairValue_above h l). lia.
Qed.

(** A character matches the text it begins, unless it ends inside a
    surrogate pair of the text. *)
Lemma matchLiteral_own (c r : jsstring) :
  sixteenBit c = true ->
  Pattern.matchLiteral (JsString.toCodePoints c) (c ++ r) =
  if splitsPair c r then None else Some r.
Proof.
  unfold sixteenBit.
  induction c as [| h | h l c IHr IHl] using code_units_ind; intros Hc.
  - reflexivity.
  - cbn [forallb] in Hc. apply andb_prop in Hc as [Hh _].
    cbn [JsString.toCodePoints Pattern.matchLiteral app].
    destruct r as [|l r]; cbn [JsString.codePointAt];
      [now rewrite N.eqb_refl|].
    unfold splitsPair. cbn [last head].
    destruct (JsString.isHighSurrogate h && JsString.isLowSurrogate l).
    + now rewrite pairValue_not_unit.
    + now rewrite N.eqb_refl.
  - pose proof Hc as Hc'. cbn [forallb] in Hc'. apply andb_prop in Hc' as [_ Hlc].
    pose proof Hlc as Hlc'. cbn [forallb] in Hlc'. apply andb_prop in Hlc' as [_ Hcc].
    cbn [JsString.toCodePoints app].
    destruct (JsString.isHighSurrogate h && JsString.isLowSurrogate l) eqn:Ep;
      cbn [Pattern.matchLiteral JsString.codePointAt]; rewrite Ep, N.eqb_refl.
    + rewrite (IHr Hcc). apply andb_prop in Ep as [_ El].
      destruct c as [|x c]; [|reflexivity].
      unfold splitsPair. cbn [last]. rewrite (low_not_high l El).
      now destruct (head r).
    + exact (IHl Hlc).
Qed.

(** Matching a character of 16-bit units, in words. *)
Lemma matchLiteral_begins (c text r : jsstring) :
  sixteenBit c = true -> sixteenBit text = true ->
  Pattern.matchLiteral (JsString.toCodePoints c) text = Some r <->
  text = c ++ r /\ splitsPair c r = false.
Proof.
  intros Hc Ht. split.
  - intros H. pose proof (matchLiteral_sound c Hc text r Ht H) as ->.
    split; [reflexivity|]. rewrite matchLiteral_own in H by exact Hc.
    now destruct (splitsPair c r).
  - intros [-> Hs]. now rewrite matchLiteral_own, Hs.
Qed.

(** Of two characters that begin the same text, the longer one has the
    longer pattern source. *)
Lemma longer_escaped (c c' r r' : jsstring) :
  c ++ r = c' ++ r' -> (length c < length c')%nat ->
  (length (Pattern.escapeStar c) < length (Pattern.escapeStar c'))%nat.
Proof.
  intros Heq Hlen.
  assert (c = take (length c) c') as Hc.
  { rewrite <- (take_app_length c r) at 1. rewrite Heq.
    rewrite take_app_le by lia. reflexivity. }
  assert (exists d, c' = c ++ d /\ d <> []) as [d [-> Hd]].
  { exists (drop (length c) c'). split.
    - rewrite Hc at 1. symmetry. apply take_drop.
    - intros Hnil. apply (f_equal (@length N)) in Hnil.
      rewrite length_drop in Hnil. cbn [length] in Hnil. lia. }
  rewrite !escapeStar_length, existsb_app, length_app.
  destruct d as [|u d]; [contradiction|]. cbn [length].
  destruct (existsb (N.eqb 42) c); cbn [orb];
    [|destruct (existsb (N.eqb 42) (u :: d))]; lia.
Qed.

Section Alternatives.

(** What the sources of the alternatives stand for. *)
Variable P : jsstring -> Prop.
Variable text : jsstring.
Hypothesis text_units : sixteenBit text = true.

(** Group 1 is the first alternative that matches; with the sources
    sorted longest first, it is the longest character that begins the
    text. *)
Lemma firstAlternative_match (srcs : list jsstring) (r : jsstring) :
  StronglySorted (fun a b => JsString.length b <= JsString.length a) srcs ->
  (forall a, In a srcs ->
     exists c, a = Pattern.escapeStar c /\ patternSafe c = true /\ P c) ->
  Pattern.firstAlternative
    (map (fun src => Pattern.literalOf (JsString.toCodePoints src)) srcs) text = Some r ->
  exists c,
    P c /\ patternSafe c = true /\ text = c ++ r /\ splitsPair c r = false
    /\ forall c', In (Pattern.escapeStar c') srcs -> patternSafe c' = true ->
                  beginsWith c' text -> (length c' <= length c)%nat.
Proof.
  induction srcs as [|a srcs IH]; intros Hsorted Hall; [discriminate|].
  apply StronglySorted_inv in Hsorted as [Hsorted Hhead].
  destruct (Hall a (or_introl eq_refl)) as [c0 [-> [Hc0 HP]]].
  pose proof (patternSafe_parts c0 Hc0) as [_ [Hb0 Hp0]].
  cbn [map Pattern.firstAlternative]. rewrite literalOf_escapeStar by exact Hp0.
  destruct (Pattern.matchLiteral (JsString.toCodePoints c0) text) as [r0|] eqn:E.
  - intros H. injection H as ->.
    apply matchLiteral_begins in E as [Ht Hs]; [|exact Hb0 | exact text_units].
    exists c0. repeat (split; [assumption|]).
    intros c' Hin' Hc' [r' [Ht' _]].
    assert (JsString.length (Pattern.escapeStar c')
            <= JsString.length (Pattern.escapeStar c0)) as Hlen.
    { destruct Hin' as [<- | Hin']; [lia|].
      rewrite List.Forall_forall in Hhead. now apply Hhead. }
    destruct (Nat.le_gt_cases (length c') (length c0)) as [Hle | Hgt]; [exact Hle|].
    exfalso. rewrite Ht in Ht'.
    pose proof (longer_escaped c0 c' r r' Ht' Hgt). unfold JsString.length in Hlen. lia.
  - intros H. destruct (IH Hsorted) as [c [HPc [Hc [Ht [Hs Hlong]]]]];
      [intros a' Ha'; apply Hall; now right | exact H |].
    exists c. repeat (split; [assumption|]).
    intros c' Hin' Hc' Hbegins. destruct Hin' as [Heq | Hin']; [|now apply Hlong].
    exfalso. pose proof (patternSafe_parts c' Hc') as [_ [Hb' Hp']].
    assert (JsString.toCodePoints c' = JsString.toCodePoints c0) as Hcp
      by (rewrite <- (literalOf_escapeStar c' Hp'), <- (literalOf_escapeStar c0 Hp0);
          now rewrite Heq).
    destruct Hbegins as [r' Hr'].
    apply (matchLiteral_begins c' text r' Hb' text_units) in Hr'.
    rewrite Hcp in Hr'. congruence.
Qed.

(** Without a match of group 1, no character begins the text. *)
Lemma firstAlternative_none (srcs : list jsstring) :
  (forall a, In a srcs ->
     exists c, a = Pattern.escapeStar c /\ patternSafe c = true /\ P c) ->
  Pattern.firstAlternative
    (map (fun src => Pattern.literalOf (JsString.toCodePoints src)) srcs) text = None ->
  forall c', In (Pattern.escapeStar c') srcs -> patternSafe c' = true ->
             ~ beginsWith c' text.
Proof.
  induction srcs as [|a srcs IH]; intros Hall; [intros _ c' []|].
  destruct (Hall a (or_introl eq_refl)) as [c0 [-> [Hc0 HP]]].
  pose proof (patternSafe_parts c0 Hc0) as [_ [Hb0 Hp0]].
  cbn [map Pattern.firstAlternative]. rewrite literalOf_escapeStar by exact Hp0.
  destruct (Pattern.matchLiteral (JsString.toCodePoints c0) text) as [r0|] eqn:E;
    [discriminate|].
  intros H c' Hin' Hc' Hbegins. destruct Hin' as [Heq | Hin'].
  - pose proof (patternSafe_parts c' Hc') as [_ [Hb' Hp']].
    assert (JsString.toCodePoints c' = JsString.toCodePoints c0) as Hcp
      by (rewrite <- (literalOf_escapeStar c' Hp'), <- (literalOf_escapeStar c0 Hp0);
          now rewrite Heq).
    destruct Hbegins as [r' Hr'].
    apply (matchLiteral_begins c' text r' Hb' text_units) in Hr'.
    rewrite Hcp in Hr'. congruence.
  - apply (IH (fun a' Ha' => Hall a' (or_intror Ha')) H c' Hin' Hc' Hbegins).
Qed.

End Alternatives.

Lemma codePointAt_Some (s : jsstring) :
  s <> [] -> exists c rest, JsString.codePointAt s = Some (c, rest).
Proof.
  destruct s as [|h [|l r]]; [contradiction | eauto |]. intros _.
  cbn [JsString.codePointAt].
  destruct (JsString.isHighSurrogate h && JsString.isLowSurrogate l); eauto.
Qed.

(** With no record at all the pattern matches the empty string, or a
    lone unit of the class, and nothing is changed. *)
Lemma replaceAll_empty (text : jsstring) :
  Pattern.replaceAll (alternatives []) (convertUniToStr []) text = text.
Proof.
  change (alternatives []) with [ @nil N ].
  assert (forall m, convertUniToStr [] m [] = m) as Hconv
    by (intros m; unfold convertUniToStr, emojiUnifiedValMap; cbn [foldl];
        now rewrite lookup_empty).
  remember (length text) as k eqn:Hk. revert text Hk.
  induction k as [k IH] using lt_wf_ind. intros text Hk.
  rewrite replaceAll_unfold. unfold Pattern.execAt.
  cbn [Pattern.firstAlternative Pattern.matchLiteral].
  replace (JsString.consumed text text) with (@nil N)
    by (unfold JsString.consumed; rewrite Nat.sub_diag; reflexivity).
  destruct (JsString.codePointAt text) as [[c r]|] eqn:Ec.
  - pose proof (codePointAt_suffix text r c Ec) as [Hs Hr].
    rewrite Hs at 3.
    destruct (Pattern.inModifierClass c); cbn [app]; rewrite !Hconv;
      [destruct (JsString.consumed text r) as [|u w]|];
      rewrite (IH (length r)) by (lia || reflexivity); reflexivity.
  - cbn [app]. rewrite Hconv.
    destruct text as [|h [|l t]]; [reflexivity | discriminate|].
    cbn [JsString.codePointAt] in Ec.
    destruct (JsString.isHighSurrogate h && JsString.isLowSurrogate l); discriminate.
Qed.

Lemma sixteenBit_drop (n : nat) (s : jsstring) :
  sixteenBit s = true -> sixteenBit (drop n s) = true.
Proof.
  unfold sixteenBit. rewrite !forallb_forall. intros H x Hx. apply H.
  rewrite <- (take_drop n s). apply in_or_app. now right.
Qed.

Lemma modifierClass_range (u : N) :
  Pattern.inModifierClass u = true <-> (0xDFFB <= u <= 0xDFFF)%N.
Proof.
  unfold Pattern.inModifierClass. rewrite andb_true_iff, !N.leb_le. tauto.
Qed.

Lemma modifierClass_not_high (u : N) :
  (0xDFFB <= u <= 0xDFFF)%N -> JsString.isHighSurrogate u = false.
Proof.
  intros H. unfold JsString.isHighSurrogate.
  apply andb_false_iff. right. apply N.leb_gt. lia.
Qed.

(** The source of every alternative is the escaped character of a
    record. *)
Lemma emojiChars_sources (emojis : list IEmoji) :
  (forall e, In e emojis -> patternSafe (char e) = true) ->
  forall a, In a (emojiChars emojis) ->
    exists c, a = Pattern.escapeStar c /\ patternSafe c = true
              /\ exists e, In e emojis /\ char e = c.
Proof.
  intros Hsafe a Ha. apply emojiChars_In in Ha as [e [He ->]].
  exists (char e). split; [reflexivity|]. split; [now apply Hsafe | eauto].
Qed.

(** Text in which no character of the dataset occurs is not changed. *)
Lemma replaceAll_absent (emojis : list IEmoji) (text : jsstring) :
  (forall e, In e emojis -> patternSafe (char e) = true) ->
  sixteenBit text = true ->
  (forall e, In e emojis -> ~ occursIn (char e) text) ->
  Pattern.replaceAll (alternatives emojis) (convertUniToStr emojis) text = text.
Proof.
  intros Hsafe Htext Hno.
  destruct emojis as [|e0 es] eqn:Hd; [apply replaceAll_empty|]. rewrite <- Hd in *.
  assert (emojis <> []) as Hne by (rewrite Hd; discriminate).
  apply replaceAll_no_match. intros n. unfold Pattern.execAt.
  rewrite alternatives_nonempty by exact Hne.
  destruct (Pattern.firstAlternative _ (drop n text)) as [r1|] eqn:E1; [|reflexivity].
  exfalso.
  apply (firstAlternative_match (fun c => exists e, In e emojis /\ char e = c)) in E1
    as [c [[e [He Hc]] [_ [Ht _]]]];
    [| now apply sixteenBit_drop | apply emojiChars_sorted
     | now apply emojiChars_sources].
  apply (Hno e He). exists (take n text), r1.
  rewrite Hc, <- Ht. symmetry. apply take_drop.
Qed.

(** C7, as the code has it, for a dataset whose characters are not
    empty and are literals of the pattern once their star is escaped.
    [replaceEmojiToStr] goes through the text from left to right.  Where
    characters of the dataset begin the text, group 1 is the longest of
    them and the match is replaced by [":" + short_name + ":"] of the
    record the character index holds for it.  Group 2 takes the unit
    after group 1 when that is a lone low surrogate [DFFB .. DFFF], and
    such a unit leaves no trace; it is empty otherwise.  A skin-tone
    modifier [U+1F3FB .. U+1F3FF] is a surrogate pair, whose first unit
    is a high surrogate: it is never captured, it stays in the text and
    is replaced like any other character.  Where no character of the
    dataset begins the text, the code point at hand is copied.  The rest
    of the text is treated the same way, and a text in which no
    character of the dataset occurs comes back unchanged. *)
Theorem replaceEmojiToStr_spec (emojis : list IEmoji) (text : jsstring) :
  (forall e, In e emojis -> patternSafe (char e) = true) ->
  sixteenBit text = true ->
  exists out,
    replaceEmojiToStr emojis text = Known out
    /\ (text = [] -> out = [])
    /\ (text <> [] ->
        (exists e p2 rest outRest,
           In e emojis
           /\ emojiUnifiedValMap emojis !! char e = Some e
           /\ text = char e ++ p2 ++ rest
           /\ beginsWith (char e) text
           /\ (forall e', In e' emojis -> beginsWith (char e') text ->
                 (length (char e') <= length (char e))%nat)
           /\ (p2 = [] \/ exists u, p2 = [u] /\ (0xDFFB <= u <= 0xDFFF)%N)
           /\ (forall u r, p2 = [] -> rest = u :: r -> ~ (0xDFFB <= u <= 0xDFFF)%N)
           /\ (forall h r, p2 ++ rest = h :: r ->
                 JsString.isHighSurrogate h = true -> p2 = [] /\ rest = h :: r)
           /\ replaceEmojiToStr emojis rest = Known outRest
           /\ out = js":" ++ short_name e ++ js":" ++ outRest)
        \/ ((forall e, In e emojis -> ~ beginsWith (char e) text)
            /\ exists c rest outRest,
                 JsString.codePointAt text = Some (c, rest)
                 /\ text = JsString.consumed text rest ++ rest
                 /\ replaceEmojiToStr emojis rest = Known outRest
                 /\ out = JsString.consumed text rest ++ outRest))
    /\ ((forall e, In e emojis -> ~ occursIn (char e) text) -> out = text).
Proof.
  intros Hsafe Htext.
  pose proof (fun t => replaceEmojiToStr_known emojis t Hsafe) as Hknown.
  exists (Pattern.replaceAll (alternatives emojis) (convertUniToStr emojis) text).
  split; [apply Hknown|].
  split.
  { intros ->. apply replaceAll_absent; [exact Hsafe | reflexivity|].
    intros e He [pre [post H]]. symmetry in H.
    apply app_eq_nil in H as [_ H]. apply app_eq_nil in H as [H _].
    pose proof (patternSafe_parts _ (Hsafe e He)) as [Hne _]. contradiction. }
  split; [|now apply replaceAll_absent].
  intros Hnil.
  destruct emojis as [|e0 es] eqn:Hd.
  { right. split; [intros e []|].
    destruct (codePointAt_Some text Hnil) as [c [rest Ec]].
    pose proof (codePointAt_suffix text rest c Ec) as [Hs _].
    exists c, rest, rest. split; [exact Ec|]. split; [exact Hs|].
    split; [now rewrite Hknown, replaceAll_empty|].
    now rewrite !replaceAll_empty. }
  rewrite <- Hd in *.
  assert (emojis <> []) as Hne by (rewrite Hd; discriminate).
  pose proof (emojiChars_sources emojis Hsafe) as Hall.
  pose proof (alternatives_nonempty emojis Hne) as Halts.
  set (alts := alternatives emojis) in *.
  rewrite replaceAll_unfold. unfold Pattern.execAt.
  destruct (Pattern.firstAlternative alts text) as [r1|] eqn:E1.
  - left. rewrite Halts in E1.
    apply (firstAlternative_match (fun c => exists e, In e emojis /\ char e = c)) in E1
      as [c [[e1 [He1 Hc1]] [Hc [Ht [Hs Hlong]]]]];
      [| exact Htext | apply emojiChars_sorted | exact Hall].
    destruct (foldl_setChar_In emojis ∅ c) as [e He];
      [rewrite <- Hc1; now apply in_map|].
    fold (emojiUnifiedValMap emojis) in He.
    destruct (emojiUnifiedValMap_Some emojis _ _ He) as [Hin Hchar].
    pose proof (patternSafe_parts c Hc) as [Hcne _].
    assert (forall e', In e' emojis -> beginsWith (char e') text ->
              (length (char e') <= length (char e))%nat) as Hlongest.
    { intros e' He' Hb. rewrite Hchar. apply Hlong; [|now apply Hsafe | exact Hb].
      apply emojiChars_In. eauto. }
    assert (beginsWith (char e) text) as Hbegins
      by (exists r1; rewrite Hchar; split; assumption).
    assert (forall m, convertUniToStr emojis m c = js":" ++ short_name e ++ js":")
      as Hconv by (intros m; unfold convertUniToStr; now rewrite He).
    rewrite <- Hchar in He.
    assert (JsString.consumed text r1 = c) as Hp1
      by (rewrite Ht; apply consumed_app).
    rewrite Hp1.
    destruct (JsString.codePointAt r1) as [[u r2]|] eqn:E2;
      [destruct (Pattern.inModifierClass u) eqn:Eu|].
    + apply modifierClass_range in Eu.
      apply codePointAt_cases in E2 as [[u' [-> ->]] | [h [l [_ [-> _]]]]];
        [|pose proof (pairValue_above h l); lia].
      change (u' :: r2) with ([u'] ++ r2). rewrite consumed_app.
      exists e, [u'], r2, (Pattern.replaceAll alts (convertUniToStr emojis) r2).
      split; [exact Hin|]. split; [exact He|].
      split; [now rewrite Hchar|]. split; [exact Hbegins|]. split; [exact Hlongest|].
      split; [right; eauto|]. split; [discriminate|].
      split.
      { intros h r H Hh. injection H as <- _.
        rewrite (modifierClass_not_high u' Eu) in Hh. discriminate. }
      split; [apply Hknown|].
      destruct (c ++ [u']) eqn:Ecp;
        [apply app_eq_nil in Ecp as [? _]; contradiction|].
      rewrite Hconv, <- !app_assoc. reflexivity.
    + exists e, [], r1, (Pattern.replaceAll alts (convertUniToStr emojis) r1).
      split; [exact Hin|]. split; [exact He|].
      split; [now rewrite Hchar|]. split; [exact Hbegins|]. split; [exact Hlongest|].
      split; [now left|].
      split.
      { intros u0 r _ Hr Hrange. subst r1.
        apply codePointAt_cases in E2 as [[u' [H ->]] | [h [l [H [_ [Hh _]]]]]];
          injection H as <- _.
        - apply modifierClass_range in Hrange. congruence.
        - rewrite (modifierClass_not_high _ Hrange) in Hh. discriminate. }
      split; [intros h r H _; split; [reflexivity | exact H]|].
      split; [apply Hknown|].
      destruct (c ++ []) eqn:Ecp;
        [apply app_eq_nil in Ecp as [? _]; contradiction|].
      rewrite Hconv, <- !app_assoc. reflexivity.
    + exists e, [], r1, (Pattern.replaceAll alts (convertUniToStr emojis) r1).
      split; [exact Hin|]. split; [exact He|].
      split; [now rewrite Hchar|]. split; [exact Hbegins|]. split; [exact Hlongest|].
      split; [now left|].
      split.
      { intros u0 r _ Hr _. subst r1.
        destruct (codePointAt_Some (u0 :: r)) as [? [? H]]; [discriminate | congruence]. }
      split; [intros h r H _; split; [reflexivity | exact H]|].
      split; [apply Hknown|].
      destruct (c ++ []) eqn:Ecp;
        [apply app_eq_nil in Ecp as [? _]; contradiction|].
      rewrite Hconv, <- !app_assoc. reflexivity.
  - right. rewrite Halts in E1. split.
    + intros e He.
      apply (firstAlternative_none (fun c => exists e, In e emojis /\ char e = c)
               text Htext _ Hall E1);
        [apply emojiChars_In; eauto | now apply Hsafe].
    + destruct (codePointAt_Some text Hnil) as [c [rest Ec]].
      pose proof (codePointAt_suffix text rest c Ec) as [Hs _].
      rewrite Ec.
      exists c, rest, (Pattern.replaceAll alts (convertUniToStr emojis) rest).
      split; [reflexivity|]. split; [exact Hs|]. split; [apply Hknown | reflexivity].
Qed.


(** X12: in a dataset whose characters are not empty and are literals
    of the pattern once their star is escaped (no other syntax character,
    one star at most), the text made of the character of a record is
    replaced by the short name between colons of the record the
    character index holds for it -- of that very record when no two
    records share a character. *)
Theorem replaceEmojiToStr_emoji (emojis : list IEmoji) (e : IEmoji) :
  (forall e', In e' emojis -> patternSafe (char e') = true) ->
  In e emojis ->
  (exists e',
     emojiUnifiedValMap emojis !! char e = Some e'
     /\ In e' emojis /\ char e' = char e
     /\ replaceEmojiToStr emojis (char e) = Known (js":" ++ short_name e' ++ js":"))
  /\ (List.NoDup (map char emojis) ->
      replaceEmojiToStr emojis (char e) = Known (js":" ++ short_name e ++ js":")).
Proof.
  intros Hsafe He.
  destruct (replaceEmojiToStr_char emojis e Hsafe He) as [e' [Hl [Hin [Hc Hr]]]].
  split; [exists e'; auto|].
  intros Hnd. rewrite Hr.
  now rewrite (NoDup_map_In char emojis e' e Hnd Hin He Hc).
Qed.

Lemma sample_patternSafe (e : IEmoji) :
  In e Sample.emojis -> patternSafe (char e) = true.
Proof.
  unfold Sample.emojis. cbn [In]. intros H.
  repeat (destruct H as [<- | H]; [vm_compute; reflexivity|]). destruct H.
Qed.

Lemma sample_chars_NoDup : List.NoDup (map char Sample.emojis).
Proof.
  unfold Sample.emojis. cbn [map].
  repeat (constructor; [cbn [In]; vm_compute; intuition discriminate|]).
  constructor.
Qed.

(** The expectations of the test suite on the sample, a lone surrogate
    of the modifier class, which is captured and dropped, and the
    escaped star of the keycap. *)
Example replaceEmojiToStr_runs :
  replaceEmojiToStr Sample.emojis [0xD83D; 0xDE00]%N = Known js":grinning:"
  /\ replaceEmojiToStr Sample.emojis js"aaaa" = Known js"aaaa"
  /\ replaceEmojiToStr Sample.emojis [0xD83D; 0xDC4B; 0xD83C; 0xDFFB]%N
     = Known js":wave::skin-tone-2:"
  /\ replaceEmojiToStr Sample.emojis [0xD83D; 0xDC4B; 0xDFFB; 0x21]%N = Known js":wave:!"
  /\ replaceEmojiToStr Sample.emojis [0x2A; 0xFE0F; 0x20E3; 0x2A]%N
     = Known js":keycap_star:*".
Proof. repeat split; vm_compute; reflexivity. Qed.

(** A character with a syntax character of the pattern language other
    than its first star is outside of what is described. *)
Example replaceEmojiToStr_outside :
  replaceEmojiToStr
    [Sample.record js"PIPE" js"E003" js"pipe.png" 0 0 js"pipe" js"Symbols" js"other"
       js"a|b" None] js"a" = OutsideModel.
Proof. vm_compute. reflexivity. Qed.

(** A waving hand followed by the modifier [U+1F3FB]: the hand is
    replaced by [":wave:"], and what follows it in the output is the
    replacement of the two units of the modifier. *)
Lemma replaceEmojiToStr_spec_witness :
  exists outRest,
    replaceEmojiToStr Sample.emojis [0xD83C; 0xDFFB]%N = Known outRest
    /\ replaceEmojiToStr Sample.emojis [0xD83D; 0xDC4B; 0xD83C; 0xDFFB]%N
       = Known (js":wave:" ++ outRest).
Proof.
  destruct (replaceEmojiToStr_spec Sample.emojis [0xD83D; 0xDC4B; 0xD83C; 0xDFFB]%N
              sample_patternSafe eq_refl) as [out [Hout [_ [Hstep _]]]].
  destruct Hstep
    as [[e [p2 [rest [outRest [Hin [_ [Ht [_ [_ [_ [_ [Hhigh [Hrest ->]]]]]]]]]]]]]
       | [Hno _]];
    [discriminate | |].
  - unfold Sample.emojis in Hin. cbn [In] in Hin.
    repeat (destruct Hin as [<- | Hin]; [try (cbn in Ht; discriminate Ht)|]);
      [|destruct Hin].
    cbn in Ht. injection Ht as Ht.
    destruct (Hhigh 0xD83C%N [0xDFFB]%N) as [-> ->];
      [symmetry; exact Ht | reflexivity|].
    exists outRest. split; [exact Hrest | exact Hout].
  - exfalso. apply (Hno Sample.wave); [vm_compute; tauto|].
    exists [0xD83C; 0xDFFB]%N. split; reflexivity.
Defined.

(** C7 fails as stated: a waving hand followed by the modifier
    [U+1F3FB].  The modifier is not captured with the hand -- group 2 is
    empty and the two units of the modifier remain -- and it is rendered
    separately, as [":skin-tone-2:"]; in a dataset without a record for
    the modifier its two units stay in the text. *)
Lemma replaceEmojiToStr_modifier_kept :
  let text := [0xD83D; 0xDC4B; 0xD83C; 0xDFFB]%N in
  Pattern.execAt (alternatives Sample.emojis) text
  = Some ([0xD83D; 0xDC4B]%N, [], [0xD83C; 0xDFFB]%N)
  /\ replaceEmojiToStr Sample.emojis text = Known js":wave::skin-tone-2:"
  /\ replaceEmojiToStr Sample.emojis text <> Known js":wave:"
  /\ replaceEmojiToStr [Sample.wave] text = Known (js":wave:" ++ [0xD83C; 0xDFFB]%N).
Proof.
  cbv zeta. split; [vm_compute; reflexivity|]. split; [vm_compute; reflexivity|].
  split; [vm_compute; discriminate | vm_compute; reflexivity].
Qed.

(** The flag-free keycap of the sample, whose star is escaped in the
    pattern. *)
Lemma replaceEmojiToStr_emoji_witness :
  replaceEmojiToStr Sample.emojis [0x2A; 0xFE0F; 0x20E3]%N = Known js":keycap_star:".
Proof.
  destruct (replaceEmojiToStr_emoji Sample.emojis Sample.keycap_star sample_patternSafe)
    as [_ H]; [vm_compute; tauto|].
  apply (H sample_chars_NoDup).
Defined.

(** X13: the token [replaceEmojiToStr] writes for an emoji is one
    [getImageDataWithColon] reads back as the short name: when the
    characters of the dataset are not empty, literals of the pattern
    once their star is escaped, and distinct, and the short name has no
    colon at either end, the character of a record is replaced by a
    token whose descriptor is the descriptor of the short name. *)
Theorem replaced_token_resolves (toLowerCase : jsstring -> jsstring)
  (emojis : list IEmoji) (e : IEmoji) :
  (forall e', In e' emojis -> patternSafe (char e') = true) ->
  List.NoDup (map char emojis) ->
  In e emojis ->
  plainName (short_name e) ->
  exists token,
    replaceEmojiToStr emojis (char e) = Known token
    /\ token = js":" ++ short_name e ++ js":"
    /\ getImageDataWithColon toLowerCase emojis token
       = getImageData toLowerCase emojis (short_name e).
Proof.
  intros Hsafe Hnd He Hplain.
  destruct (replaceEmojiToStr_char emojis e Hsafe He) as [e' [_ [Hin [Hc Hr]]]].
  rewrite (NoDup_map_In char emojis e' e Hnd Hin He Hc) in Hr.
  eexists. split; [exact Hr|]. split; [reflexivity|].
  unfold getImageDataWithColon.
  now rewrite replaceColons_trimColons, trimColons_wrapped.
Qed.

Lemma replaced_token_resolves_witness :
  replaceEmojiToStr Sample.emojis [0xD83D; 0xDE04]%N = Known js":smile:"
  /\ getImageDataWithColon Sample.lower Sample.emojis js":smile:"
     = Some {| ei_x := 53.333333333333336%float;
               ei_y := 83.33333333333334%float;
               sheetSizeX := 6100%float;
               sheetSizeY := 6100%float;
               ei_image := Some js"1f604.png" |}.
Proof.
  destruct (replaced_token_resolves Sample.lower Sample.emojis Sample.smile
              sample_patternSafe sample_chars_NoDup) as [token [Hr [Ht Hd]]].
  - vm_compute. tauto.
  - split; vm_compute; discriminate.
  - subst token. split; [exact Hr|].
    transitivity (getImageData Sample.lower Sample.emojis (short_name Sample.smile));
      [exact Hd | vm_compute; reflexivity].
Defined.

(** ** The stripped token *)

Lemma skipColons_not_colon (s : jsstring) :
  head (Pattern.skipColons s) <> Some 58%N.
Proof.
  induction s as [|c s IH]; [discriminate|].
  cbn [Pattern.skipColons]. destruct (Pattern.isColon c) eqn:E; [exact IH|].
  cbn [head]. intros H. injection H as ->. discriminate.
Qed.

Lemma skipColons_suffix (s : jsstring) :
  exists pre, s = pre ++ Pattern.skipColons s.
Proof.
  induction s as [|c s [pre IH]]; [now exists []|].
  cbn [Pattern.skipColons]. destruct (Pattern.isColon c); [|now exists []].
  exists (c :: pre). cbn [app]. now rewrite <- IH.
Qed.

Lemma last_rev {A : Type} (l : list A) : last (rev l) = head l.
Proof. rewrite <- (rev_involutive l) at 2. symmetry. apply head_rev. Qed.

Lemma trimColons_plainName (s : jsstring) : plainName (trimColons s).
Proof.
  unfold plainName, trimColons. split.
  - rewrite head_rev.
    destruct (skipColons_suffix (rev (Pattern.skipColons s))) as [pre Hpre].
    destruct (Pattern.skipColons (rev (Pattern.skipColons s))) as [|u w] eqn:E;
      [discriminate|].
    assert (last (u :: w) = last (rev (Pattern.skipColons s))) as Hl.
    { rewrite Hpre, last_app. destruct (last (u :: w)) eqn:El; [reflexivity|].
      apply last_None in El. discriminate. }
    rewrite Hl, last_rev. apply skipColons_not_colon.
  - rewrite last_rev. apply skipColons_not_colon.
Qed.

Lemma trimColons_plain (n : jsstring) : plainName n -> trimColons n = n.
Proof.
  intros [Hh Hl]. unfold trimColons.
  rewrite (skipColons_head n) by exact Hh.
  rewrite skipColons_head by (rewrite head_rev; exact Hl).
  apply rev_involutive.
Qed.

(** X14: what [getImageDataWithColon] hands to [getImageData] never
    starts or ends with a colon; a token that is already so is handed
    over unchanged, so wrapping colons, however many, do not matter. *)
Theorem getImageDataWithColon_strips (toLowerCase : jsstring -> jsstring)
  (emojis : list IEmoji) (token : jsstring) :
  plainName (Pattern.replaceColons token)
  /\ Pattern.replaceColons (Pattern.replaceColons token) = Pattern.replaceColons token
  /\ (plainName token -> Pattern.replaceColons token = token)
  /\ (forall front back,
        plainName token ->
        forallb Pattern.isColon front = true -> forallb Pattern.isColon back = true ->
        getImageDataWithColon toLowerCase emojis (front ++ token ++ back)
        = getImageData toLowerCase emojis token).
Proof.
  rewrite !replaceColons_trimColons.
  split; [apply trimColons_plainName|].
  split; [apply trimColons_plain, trimColons_plainName|].
  split; [apply trimColons_plain|].
  intros front back [Hh Hl] Hf Hb. unfold getImageDataWithColon.
  rewrite replaceColons_trimColons. f_equal. unfold trimColons.
  rewrite skipColons_app, Hf.
  destruct token as [|u w].
  - cbn [app]. rewrite (skipColons_all back Hb). reflexivity.
  - assert (Pattern.isColon u = false) as Hu.
    { destruct (Pattern.isColon u) eqn:E; [|reflexivity].
      apply N.eqb_eq in E. subst u. now contradiction Hh. }
    cbn [app Pattern.skipColons]. rewrite Hu.
    change (u :: w ++ back) with ((u :: w) ++ back).
    rewrite rev_app_distr, skipColons_app, forallb_rev, Hb.
    rewrite skipColons_head by (rewrite head_rev; exact Hl).
    apply rev_involutive.
Qed.

Lemma getImageDataWithColon_strips_witness :
  getImageDataWithColon Sample.lower Sample.emojis js":::spock-hand::skin-tone-4::"
  = getImageData Sample.lower Sample.emojis js"spock-hand::skin-tone-4".
Proof.
  destruct (getImageDataWithColon_strips Sample.lower Sample.emojis
              js"spock-hand::skin-tone-4") as [_ [_ [_ H]]].
  apply (H js":::" js"::"); [split; vm_compute; discriminate | reflexivity ..].
Defined.

(** ** More on the compound form *)

Lemma lowerInvariant_isAscii (s : jsstring) :
  forallb JsString.lowerInvariant s = true -> forallb JsString.isAscii s = true.
Proof.
  rewrite !forallb_forall. intros H u Hu. specialize (H u Hu).
  unfold JsString.lowerInvariant in H. now apply andb_prop in H as [H _].
Qed.

Lemma isDigit_lowerInvariant (ds : jsstring) :
  forallb Pattern.isDigit ds = true -> forallb JsString.lowerInvariant ds = true.
Proof.
  rewrite !forallb_forall. intros H u Hu. specialize (H u Hu).
  unfold Pattern.isDigit in H. apply andb_prop in H as [H1 H2].
  apply N.leb_le in H1, H2.
  unfold JsString.lowerInvariant, JsString.isAscii, JsString.isUpperAscii.
  apply andb_true_intro. split; [apply N.ltb_lt; lia|].
  apply negb_true_iff, andb_false_iff. left. apply N.leb_gt. lia.
Qed.

(** A compound query written in lowercase is its own lowercased form. *)
Lemma compound_lowercase (toLowerCase : jsstring -> jsstring) (n ds : jsstring) :
  (forall s, forallb JsString.isAscii s = true ->
             toLowerCase s = JsString.asciiToLowerCase s) ->
  forallb JsString.lowerInvariant n = true ->
  forallb Pattern.isDigit ds = true ->
  toLowerCase n = n
  /\ toLowerCase (n ++ js"::skin-tone-" ++ ds) = n ++ js"::skin-tone-" ++ ds.
Proof.
  intros Hlower Hn Hds.
  assert (forall s, forallb JsString.lowerInvariant s = true -> toLowerCase s = s) as H.
  { intros s Hs. rewrite Hlower by now apply lowerInvariant_isAscii.
    now apply lowerAsciiUnit_invariant. }
  split; [now apply H|]. apply H.
  rewrite !forallb_app, Hn, (isDigit_lowerInvariant ds Hds). reflexivity.
Qed.

Lemma digitsOf_all (ds : jsstring) :
  forallb Pattern.isDigit ds = true -> Pattern.digitsOf ds = ds.
Proof.
  induction ds as [|d ds IH]; [reflexivity|]. cbn [forallb Pattern.digitsOf].
  intros H. apply andb_prop in H as [Hd H]. rewrite Hd. now rewrite IH.
Qed.

(** In [b::skin-tone-ds], with no earlier match inside [b], the pattern
    captures all the digits [ds]. *)
Lemma matchSkinTone_digits (b ds : jsstring) :
  forallb Pattern.isDigit ds = true -> ds <> [] ->
  Pattern.matchSkinTone b = None ->
  Pattern.matchSkinTone (b ++ js"::skin-tone-" ++ ds) = Some ds.
Proof.
  intros Hd Hne. induction b as [|c b IH]; intros Hb.
  - change ([] ++ js"::skin-tone-" ++ ds)
      with (58%N :: 58%N :: js"skin-tone-" ++ ds).
    cbn [Pattern.matchSkinTone].
    change (Pattern.skinToneAt (58%N :: 58%N :: js"skin-tone-" ++ ds)) with (@None jsstring).
    change (Pattern.skinToneAt (58%N :: js"skin-tone-" ++ ds)) with (@None jsstring).
    cbv iota.
    change (js"skin-tone-" ++ ds) with (115%N :: tail (js"skin-tone-" ++ ds)).
    cbn [Pattern.matchSkinTone].
    change (115%N :: tail (js"skin-tone-" ++ ds)) with (js"skin-tone-" ++ ds).
    unfold Pattern.skinToneAt. rewrite startsWith_app.
    change (drop 10 (js"skin-tone-" ++ ds)) with ds.
    rewrite digitsOf_all by exact Hd.
    destruct ds; [contradiction | reflexivity].
  - cbn [Pattern.matchSkinTone] in Hb.
    destruct (Pattern.skinToneAt (c :: b)) eqn:E; [discriminate|].
    change ((c :: b) ++ js"::skin-tone-" ++ ds)
      with (c :: b ++ js"::skin-tone-" ++ ds).
    cbn [Pattern.matchSkinTone].
    change (c :: b ++ js"::skin-tone-" ++ ds)
      with ((c :: b) ++ 58%N :: (58%N :: js"skin-tone-" ++ ds)).
    rewrite skinToneAt_before_colon by exact E.
    now apply IH.
Qed.

Lemma compound_occursIn (n ds : jsstring) :
  occursIn js"::skin-tone-" (n ++ js"::skin-tone-" ++ ds).
Proof. now exists n, ds. Qed.

(** X15: [getSkinInfo] and [getImageData] agree on a tone: for a name
    [n] written in lowercase that resolves to the record [e], the
    coordinates and the image [getSkinInfo e "skin-tone-d"] returns are
    those of the descriptor [getImageData "n::skin-tone-d"] returns. *)
Theorem getSkinInfo_as_getImageData (toLowerCase : jsstring -> jsstring)
  (emojis : list IEmoji) (n : jsstring) (d : N) (e : IEmoji) :
  (forall s, forallb JsString.isAscii s = true ->
             toLowerCase s = JsString.asciiToLowerCase s) ->
  forallb JsString.lowerInvariant n = true ->
  Pattern.matchSkinTone n = None ->
  Pattern.isDigit d = true ->
  emojiValMap emojis !! n = Some e ->
  let tone := js"skin-tone-" ++ [d] in
  exists pos,
    getImageData toLowerCase emojis (n ++ js"::" ++ tone) = Some pos
    /\ getSkinInfo emojis e (Some tone) =
         {| si_sheet_x := ei_x pos; si_sheet_y := ei_y pos;
            si_unified := unified e; si_short_name := tone;
            si_image := ei_image pos |}.
Proof.
  intros Hlower Hn Hm Hd He tone.
  exists (findImage e (emojiValMap emojis !! tone)). split.
  - change (n ++ js"::" ++ tone) with (n ++ js"::skin-tone-" ++ [d]).
    assert (forallb Pattern.isDigit [d] = true) as Hds by (cbn [forallb]; now rewrite Hd).
    destruct (compound_lowercase toLowerCase n [d] Hlower Hn Hds) as [_ Hq].
    rewrite getImageData_compound_branch by (rewrite Hq; apply compound_occursIn).
    cbv zeta. rewrite Hq.
    rewrite (substring0_suffix13 n (js"::skin-tone-" ++ [d])) by reflexivity.
    rewrite He, matchSkinTone_suffix by assumption. reflexivity.
  - assert (hasSkinTone (Some tone) = true) as Ht.
    { apply hasSkinTone_occursIn. now exists [], [d]. }
    unfold getSkinInfo. rewrite Ht. reflexivity.
Qed.

Lemma getSkinInfo_as_getImageData_witness :
  exists pos,
    getImageData Sample.lower Sample.emojis (js"wave" ++ js"::" ++ js"skin-tone-" ++ [50%N])
      = Some pos
    /\ getSkinInfo Sample.emojis Sample.wave (Some (js"skin-tone-" ++ [50%N])) =
         {| si_sheet_x := ei_x pos; si_sheet_y := ei_y pos;
            si_unified := unified Sample.wave;
            si_short_name := js"skin-tone-" ++ [50%N];
            si_image := ei_image pos |}.
Proof.
  apply (getSkinInfo_as_getImageData Sample.lower Sample.emojis js"wave" 50 Sample.wave);
    [exact sample_lower_ascii | reflexivity | reflexivity | reflexivity
    | vm_compute; reflexivity].
Defined.

(** X16: for a record without skin variations the tone of a compound
    query changes nothing: ["n::skin-tone-d"] gives the descriptor of
    the record itself.  The compound form does not look at the category:
    it answers even for a record of category ["Skin Tones"], for which
    the plain form [n] answers "not found". *)
Theorem getImageData_without_variations (toLowerCase : jsstring -> jsstring)
  (emojis : list IEmoji) (n : jsstring) (d : N) (e : IEmoji) :
  (forall s, forallb JsString.isAscii s = true ->
             toLowerCase s = JsString.asciiToLowerCase s) ->
  forallb JsString.lowerInvariant n = true ->
  ~ occursIn js"::skin-tone-" n ->
  Pattern.isDigit d = true ->
  emojiValMap emojis !! n = Some e ->
  skin_variations e = None ->
  getImageData toLowerCase emojis (n ++ js"::skin-tone-" ++ [d]) = Some (findImage e None)
  /\ (category e <> js"Skin Tones" ->
      getImageData toLowerCase emojis n = Some (findImage e None))
  /\ (category e = js"Skin Tones" -> getImageData toLowerCase emojis n = None).
Proof.
  intros Hlower Hn Hplain Hd He Hv.
  assert (forallb Pattern.isDigit [d] = true) as Hds by (cbn [forallb]; now rewrite Hd).
  destruct (compound_lowercase toLowerCase n [d] Hlower Hn Hds) as [Hln Hq].
  split; [|split].
  - rewrite getImageData_compound_branch by (rewrite Hq; apply compound_occursIn).
    cbv zeta. rewrite Hq.
    rewrite (substring0_suffix13 n (js"::skin-tone-" ++ [d])) by reflexivity.
    rewrite He. f_equal. unfold findImage. rewrite Hv.
    now destruct (emojiValMap emojis !! _).
  - intros Hc. rewrite getImageData_plain_branch by (rewrite Hln; exact Hplain).
    rewrite Hln, He.
    destruct (JsString.eqb (category e) js"Skin Tones") eqn:E; [|reflexivity].
    apply eqb_eq in E. contradiction.
  - intros Hc. rewrite getImageData_plain_branch by (rewrite Hln; exact Hplain).
    rewrite Hln, He.
    destruct (JsString.eqb (category e) js"Skin Tones") eqn:E; [reflexivity|].
    apply eqb_eq in Hc. congruence.
Qed.

(** On the sample, whose modifiers are of category ["Skin Tones"]. *)
Lemma getImageData_without_variations_witness :
  getImageData Sample.lower Sample.emojis js"skin-tone-2::skin-tone-4"
    = Some (findImage Sample.skin_tone_2 None)
  /\ getImageData Sample.lower Sample.emojis js"skin-tone-2" = None.
Proof.
  destruct (getImageData_without_variations Sample.lower Sample.emojis
              js"skin-tone-2" 52 Sample.skin_tone_2) as [H1 [_ H2]].
  - exact sample_lower_ascii.
  - reflexivity.
  - apply indexOf_absent. vm_compute. reflexivity.
  - reflexivity.
  - vm_compute. reflexivity.
  - reflexivity.
  - split; [exact H1 | apply H2; reflexivity].
Defined.

(** X17: the base name is cut 13 units before the end whatever the
    tone.  For a query whose lowercased form is [n::skin-tone-ds] with
    one digit or more in [ds], the base name looked up is [n] followed by
    all but the last 13 units of ["::skin-tone-" ++ ds] -- [n] itself for
    one digit, ["n:"] for two -- and the answer is "not found" when it
    does not resolve.  When it does, the modifier is looked up under all
    the digits [ds] if [n] holds no match of [skin-tone-<digits>], and
    under the digits of the leftmost match in [n] if it holds one. *)
Theorem getImageData_tone_digits (toLowerCase : jsstring -> jsstring)
  (emojis : list IEmoji) (q n ds : jsstring) :
  toLowerCase q = n ++ js"::skin-tone-" ++ ds ->
  forallb Pattern.isDigit ds = true ->
  (1 <= length ds)%nat ->
  let baseName := n ++ take (length ds - 1) (js"::skin-tone-" ++ ds) in
  (length ds = 1%nat -> baseName = n)
  /\ (length ds = 2%nat -> baseName = n ++ js":")
  /\ (emojiValMap emojis !! baseName = None ->
      getImageData toLowerCase emojis q = None)
  /\ (forall base, emojiValMap emojis !! baseName = Some base ->
        ((forall i M, ~ toneAt n i M) ->
         getImageData toLowerCase emojis q =
           Some (findImage base (emojiValMap emojis !! (js"skin-tone-" ++ ds))))
        /\ (forall M, leftmostTone n M ->
              getImageData toLowerCase emojis q =
                Some (findImage base (emojiValMap emojis !! (js"skin-tone-" ++ M))))).
Proof.
  intros Hq Hds Hk baseName.
  assert (getImageData toLowerCase emojis q =
          match emojiValMap emojis !! baseName with
          | Some base =>
              Some (findImage base
                      (emojiValMap emojis
                         !! skinToneKey
                              (Pattern.matchSkinTone (n ++ js"::skin-tone-" ++ ds))))
          | None => None
          end) as Hbranch.
  { rewrite getImageData_compound_branch by (rewrite Hq; apply compound_occursIn).
    cbv zeta. rewrite Hq.
    replace (JsString.substring0 (n ++ js"::skin-tone-" ++ ds)
               (JsString.length (n ++ js"::skin-tone-" ++ ds) - 13))
      with baseName; [reflexivity|].
    unfold baseName, JsString.substring0, JsString.length. rewrite !length_app.
    change (length js"::skin-tone-") with 12%nat.
    replace (Z.to_nat _) with (length n + (length ds - 1))%nat by lia.
    now rewrite take_app_add. }
  split; [intros H1; unfold baseName; rewrite H1; apply app_nil_r|].
  split; [intros H2; unfold baseName; now rewrite H2|].
  split; [intros Hnone; now rewrite Hbranch, Hnone|].
  intros base Hbase. rewrite Hbranch, Hbase. split.
  - intros Hno. apply matchSkinTone_None in Hno.
    rewrite matchSkinTone_digits;
      [reflexivity | exact Hds | destruct ds; [simpl in Hk; lia | discriminate] | exact Hno].
  - intros M HM. apply matchSkinTone_leftmost in HM.
    change (n ++ js"::skin-tone-" ++ ds)
      with (n ++ 58%N :: (58%N :: js"skin-tone-" ++ ds)).
    rewrite (matchSkinTone_base n (58%N :: js"skin-tone-" ++ ds) M HM). reflexivity.
Qed.

(** Two digits on the sample: the base name is ["spock-hand:"], which
    no record lists. *)
Lemma getImageData_tone_digits_witness :
  getImageData Sample.lower Sample.emojis js"spock-hand::skin-tone-12" = None.
Proof.
  destruct (getImageData_tone_digits Sample.lower Sample.emojis
              js"spock-hand::skin-tone-12" js"spock-hand" js"12")
    as [_ [_ [H _]]];
    [reflexivity | reflexivity | change (length js"12") with 2%nat; lia|].
  apply H. vm_compute. reflexivity.
Defined.

(** X18: a query whose lowercased form contains ["::skin-tone-"] and has
    at most 13 units is looked up under the empty base name; when no
    record lists the empty name the answer is "not found". *)
Theorem getImageData_short_compound (toLowerCase : jsstring -> jsstring)
  (emojis : list IEmoji) (q : jsstring) :
  occursIn js"::skin-tone-" (toLowerCase q) ->
  (length (toLowerCase q) <= 13)%nat ->
  getImageData toLowerCase emojis q =
    match emojiValMap emojis !! [] with
    | Some base =>
        Some (findImage base
                (emojiValMap emojis
                   !! skinToneKey (Pattern.matchSkinTone (toLowerCase q))))
    | None => None
    end
  /\ ((forall e, In e emojis -> ~ In [] (short_names e)) ->
      getImageData toLowerCase emojis q = None).
Proof.
  intros Hq Hlen.
  assert (getImageData toLowerCase emojis q =
          match emojiValMap emojis !! [] with
          | Some base =>
              Some (findImage base
                      (emojiValMap emojis
                         !! skinToneKey (Pattern.matchSkinTone (toLowerCase q))))
          | None => None
          end) as H.
  { rewrite getImageData_compound_branch by exact Hq. cbv zeta.
    replace (JsString.substring0 (toLowerCase q) (JsString.length (toLowerCase q) - 13))
      with (@nil N); [reflexivity|].
    unfold JsString.substring0, JsString.length.
    replace (Z.to_nat _) with 0%nat by lia. reflexivity. }
  split; [exact H|].
  intros Hno. apply emojiValMap_None in Hno. now rewrite H, Hno.
Qed.

Lemma getImageData_short_compound_witness :
  getImageData Sample.lower Sample.emojis js"::skin-tone-4" = None.
Proof.
  destruct (getImageData_short_compound Sample.lower Sample.emojis js"::skin-tone-4")
    as [_ H].
  - apply indexOf_occursIn. vm_compute. discriminate.
  - vm_compute. lia.
  - apply H. apply emojiValMap_None. vm_compute. reflexivity.
Defined.


(** ** Case in [searchEmoji] *)

Lemma occursIn_forallb (f : N -> bool) (p s : jsstring) :
  occursIn p s -> forallb f s = true -> forallb f p = true.
Proof.
  intros [pre [post ->]]. rewrite !forallb_app. intros H.
  apply andb_prop in H as [_ H]. now apply andb_prop in H as [H _].
Qed.

(** X19: the search is case-sensitive: in a dataset whose short names
    are written without capital ASCII letters, a query that has one
    finds nothing, whatever the limit. *)
Theorem searchEmoji_case_sensitive (emojis : list IEmoji) (q : jsstring) (limit : Z) :
  (forall e, In e emojis -> forallb JsString.lowerInvariant (short_name e) = true) ->
  existsb JsString.isUpperAscii q = true ->
  searchEmoji emojis q limit = [].
Proof.
  intros Hnames Hq.
  assert (ranked emojis q = []) as Hr.
  { destruct (ranked emojis q) as [|e r] eqn:E; [reflexivity|]. exfalso.
    assert (In e (ranked emojis q)) as He by (rewrite E; now left).
    apply ranked_In in He as [He [Hocc _]].
    apply (occursIn_forallb JsString.lowerInvariant) in Hocc; [|now apply Hnames].
    apply existsb_exists in Hq as [u [Hu Hup]].
    rewrite forallb_forall in Hocc. specialize (Hocc u Hu).
    unfold JsString.lowerInvariant in Hocc. rewrite Hup in Hocc.
    now rewrite andb_false_r in Hocc. }
  unfold searchEmoji, JsArray.slice0. rewrite Hr. now rewrite take_nil.
Qed.

Lemma searchEmoji_case_sensitive_witness :
  searchEmoji Sample.emojis js"Smile" 10 = [].
Proof.
  apply searchEmoji_case_sensitive; [|reflexivity].
  unfold Sample.emojis. cbn [In]. intros e H.
  repeat (destruct H as [<- | H]; [vm_compute; reflexivity|]). destruct H.
Defined.

(** ** The example script *)

Lemma split_cons (str : jsstring) : exists part parts, split str = part :: parts.
Proof.
  destruct str as [|c rest]; [now exists [], []|]. cbn [split].
  destruct (N.eqb c 32); [eauto|]. destruct (split rest); eauto.
Qed.

Lemma split_join (str : jsstring) : joinWithSpaces (split str) = str.
Proof.
  induction str as [|c rest IH]; [reflexivity|]. cbn [split].
  destruct (split_cons rest) as [part [parts Hs]]. rewrite Hs in *.
  destruct (N.eqb c 32) eqn:E.
  - apply N.eqb_eq in E. subst c.
    change (joinWithSpaces ([] :: part :: parts))
      with (32%N :: joinWithSpaces (part :: parts)).
    now rewrite IH.
  - destruct parts as [|part' parts].
    + change (joinWithSpaces [c :: part]) with (c :: joinWithSpaces [part]).
      now rewrite IH.
    + change (joinWithSpaces ((c :: part) :: part' :: parts))
        with (c :: joinWithSpaces (part :: part' :: parts)).
      now rewrite IH.
Qed.

Lemma split_length (str : jsstring) :
  length (split str) = S (length (List.filter (N.eqb 32) str)).
Proof.
  induction str as [|c rest IH]; [reflexivity|]. cbn [split List.filter].
  rewrite (N.eqb_sym 32 c). destruct (N.eqb c 32); cbn [length]; [now rewrite IH|].
  destruct (split_cons rest) as [part [parts Hs]]. rewrite Hs in *. exact IH.
Qed.

Lemma split_no_space (str : jsstring) :
  Forall (fun part => forallb (fun u => negb (N.eqb u 32)) part = true) (split str).
Proof.
  induction str as [|c rest IH]; [repeat constructor|]. cbn [split].
  destruct (N.eqb c 32) eqn:E; [constructor; [reflexivity | exact IH]|].
  destruct (split_cons rest) as [part [parts Hs]]. rewrite Hs in *.
  apply Forall_cons_iff in IH as [Hp Hps]. constructor; [|exact Hps].
  cbn [forallb]. now rewrite E, Hp.
Qed.

(** X20: the script writes one line for each piece of the string, one
    more than the string has spaces; the pieces hold no space and,
    joined by spaces, give the string back; a line is the piece itself
    when the piece is no name of the dataset, and otherwise the
    character of a dataset record that lists the lowercased piece. *)
Theorem scriptLines_spec (toLowerCase : jsstring -> jsstring)
  (emojis : list IEmoji) (str : jsstring) :
  length (scriptLines toLowerCase emojis str)
    = S (length (List.filter (N.eqb 32) str))
  /\ joinWithSpaces (split str) = str
  /\ Forall (fun part => forallb (fun u => negb (N.eqb u 32)) part = true) (split str)
  /\ Forall2 (fun part line =>
                (getEmojiByName toLowerCase emojis part = None /\ line = part)
                \/ exists e, In e emojis
                             /\ In (toLowerCase part) (short_names e)
                             /\ line = char e)
       (split str) (scriptLines toLowerCase emojis str).
Proof.
  split; [unfold scriptLines; rewrite length_map; apply split_length|].
  split; [apply split_join|]. split; [apply split_no_space|].
  unfold scriptLines. induction (split str) as [|part parts IH]; [constructor|].
  cbn [map]. constructor; [|exact IH].
  destruct (getEmojiByName toLowerCase emojis part) as [e|] eqn:E; [right | now left].
  unfold getEmojiByName in E. apply emojiValMap_Some in E as [He Hn].
  exists e. auto.
Qed.

Example scriptLines_runs :
  scriptLines Sample.lower Sample.emojis js"I Smile  sob"
  = [js"I"; [0xD83D; 0xDE04]%N; []; [0xD83D; 0xDE2D]%N].
Proof. vm_compute. reflexivity. Qed.
